(** * Query compilation and row materialisation of the racing and sports
      repositories

    A shallow embedding of the races repository ([racing/db/races.go]) and
    of the events repository of the sports service, with its query
    catalogue: the filter compiler [applyFilter], the
    order compiler [convertOrderByFieldToSql] / [convertOrderByToSql] /
    [applyOrdering], the row materialisers [scanRaces] / [scanEvents], the
    one-time initialisation [Init] and the single-entity read [Get].

    Go strings are byte sequences and are modelled by [string]; [int64]
    values are modelled by [Z] (no arithmetic is done on them); a
    [time.Time] is an instant, in nanoseconds since the Unix epoch, as a
    [Z]. A Go function that may panic at run time returns an [outcome]. *)

From Stdlib Require Import ZArith Lia Ascii.
From stdpp Require Import base option list gmap strings.

Local Open Scope Z_scope.

(** ** Results of Go calls *)

(** A call either returns a value or unwinds with a run-time panic. *)
Inductive outcome (A : Type) : Type :=
  | Returns (a : A)
  | Panics (msg : string).
Arguments Returns {A} a.
Arguments Panics {A} msg.

Global Instance outcome_ret : MRet outcome := fun A a => Returns a.
Global Instance outcome_bind : MBind outcome := fun A B k m =>
  match m with
  | Returns a => k a
  | Panics msg => Panics msg
  end.

(** The message of the run-time error raised by [s[i]] on a slice of
    length [n] with [i >= n], for the one index the code uses. *)
Definition indexOutOfRange0 : string :=
  "runtime error: index out of range [0] with length 0".
Definition indexOutOfRange1 : string :=
  "runtime error: index out of range [1]".

(** ** The [strings] package *)

Module gostrings.

(** [strings.Repeat(s, count)], for the non-negative counts the code
    passes. *)
Fixpoint Repeat (s : string) (count : nat) : string :=
  match count with
  | O => ""
  | S n => s +:+ Repeat s n
  end.

(** [strings.Join(elems, sep)]. *)
Definition Join (elems : list string) (sep : string) : string :=
  String.concat sep elems.

(** [strings.Contains(s, substr)]. *)
Fixpoint Contains (s substr : string) : bool :=
  String.prefix substr s ||
  match s with
  | "" => false
  | String _ s' => Contains s' substr
  end.

(** [strings.ToLower(s)] on the ASCII letters. Bytes from 128 up are
    carried over unchanged: Go maps the runes they encode through the
    Unicode case tables (and an invalid byte to U+FFFD), which again
    yields bytes from 128 up, except for U+0130 and U+212A, whose lower
    case is [i] and [k]. *)
Definition lowerByte (c : ascii) : ascii :=
  let n := N_of_ascii c in
  if ((65 <=? n) && (n <=? 90))%N then ascii_of_N (n + 32) else c.

Fixpoint ToLower (s : string) : string :=
  match s with
  | "" => ""
  | String c s' => String (lowerByte c) (ToLower s')
  end.

(** [unicode.IsSpace] read off the UTF-8 bytes at the head of a string:
    the number of bytes of the white-space rune that starts there, or
    [0] when none does. The runes are the ASCII ones, U+0085, U+00A0,
    U+1680, U+2000 to U+200A, U+2028, U+2029, U+202F, U+205F and
    U+3000. A lead byte never occurs inside another rune's encoding, so
    the test is exact at every byte offset. *)
Definition spaceWidth (s : string) : nat :=
  match s with
  | "" => 0%nat
  | String a s1 =>
    if Ascii.is_space a then 1%nat else
    match N_of_ascii a, s1 with
    | 194%N, String b _ =>
      match N_of_ascii b with
      | 133%N | 160%N => 2%nat
      | _ => 0%nat
      end
    | 225%N, String b (String c _) =>
      match N_of_ascii b, N_of_ascii c with
      | 154%N, 128%N => 3%nat
      | _, _ => 0%nat
      end
    | 226%N, String b (String c _) =>
      match N_of_ascii b with
      | 128%N =>
        let n := N_of_ascii c in
        if ((128 <=? n) && (n <=? 138) || (n =? 168) || (n =? 169)
            || (n =? 175))%N then 3%nat else 0%nat
      | 129%N => if (N_of_ascii c =? 159)%N then 3%nat else 0%nat
      | _ => 0%nat
      end
    | 227%N, String b (String c _) =>
      match N_of_ascii b, N_of_ascii c with
      | 128%N, 128%N => 3%nat
      | _, _ => 0%nat
      end
    | _, _ => 0%nat
    end
  end.

(** The same test on the bytes at the end of a string, given reversed. *)
Definition spaceWidthRev (r : string) : nat :=
  match r with
  | "" => 0%nat
  | String c r1 =>
    if Ascii.is_space c then 1%nat else
    match r1 with
    | String b r2 =>
      if (spaceWidth (String b (String c "")) =? 2)%nat then 2%nat else
      match r2 with
      | String a _ =>
        if (spaceWidth (String a (String b (String c ""))) =? 3)%nat
        then 3%nat else 0%nat
      | "" => 0%nat
      end
    | "" => 0%nat
    end
  end.

Definition flush (cur : string) : list string :=
  match cur with
  | "" => []
  | _ => [cur]
  end.

(** [strings.Fields(s)]: the maximal runs of non-white-space bytes.
    [skip] counts the bytes still to drop of a white-space rune. *)
Fixpoint fieldsFrom (skip : nat) (cur s : string) : list string :=
  match s with
  | "" => flush cur
  | String a s' =>
    match skip with
    | S k => fieldsFrom k cur s'
    | O =>
      match spaceWidth s with
      | O => fieldsFrom 0 (cur +:+ String a "") s'
      | S w => flush cur ++ fieldsFrom w "" s'
      end
    end
  end.

Definition Fields (s : string) : list string := fieldsFrom 0 "" s.

(** [strings.Split(s, sep)] for a non-empty separator: the pieces
    between the successive occurrences of [sep], empty ones included. *)
Fixpoint splitFrom (sep : string) (skip : nat) (cur s : string)
  : list string :=
  match s with
  | "" => [cur]
  | String a s' =>
    match skip with
    | S k => splitFrom sep k cur s'
    | O =>
      if String.prefix sep s
      then cur :: splitFrom sep (String.length sep - 1) "" s'
      else splitFrom sep 0 (cur +:+ String a "") s'
    end
  end.

Definition Split (s sep : string) : list string := splitFrom sep 0 "" s.

(** [strings.TrimSpace(s)]: white space removed at both ends. *)
Fixpoint dropSpaces (width : string -> nat) (skip : nat) (s : string)
  : string :=
  match s with
  | "" => ""
  | String _ s' =>
    match skip with
    | S k => dropSpaces width k s'
    | O =>
      match width s with
      | O => s
      | S w => dropSpaces width w s'
      end
    end
  end.

Definition TrimSpace (s : string) : string :=
  String.rev
    (dropSpaces spaceWidthRev 0 (String.rev (dropSpaces spaceWidth 0 s))).

End gostrings.

(** ** The order compiler *)

(** [convertOrderByFieldToSql] and [convertOrderByToSql] are written twice
    in the source, once per resource, and differ in the [sortableFields]
    map only. *)
Module OrderCompiler.
Section WithSortableFields.

Variable sortableFields : gmap string string.

Definition convertOrderByFieldToSql (orderByField : string)
  : outcome (string * bool) :=
  let orderByFieldSplit := gostrings.Fields orderByField in
  if (2 <? length orderByFieldSplit)%nat then Returns ("", false) else
  match orderByFieldSplit !! 0%nat with
  | None => Panics indexOutOfRange0
  | Some field =>
    match sortableFields !! field with
    | None => Returns ("", false)
    | Some databaseField =>
      let orderByFieldSql := "" +:+ databaseField in
      if (length orderByFieldSplit =? 2)%nat then
        match orderByFieldSplit !! 1%nat with
        | None => Panics indexOutOfRange1
        | Some direction =>
          let desc := gostrings.ToLower direction in
          if gostrings.Contains desc "desc"
          then Returns (orderByFieldSql +:+ " DESC", true)
          else Returns (orderByFieldSql, true)
        end
      else Returns (orderByFieldSql, true)
    end
  end.

(** The body of the [for ... range strings.Split(orderBy, ",")] loop,
    threaded through the slice [sqls]. *)
Fixpoint convertOrderByFields (fields sqls : list string)
  : outcome (list string) :=
  match fields with
  | [] => Returns sqls
  | orderByField :: rest =>
    let orderByField := gostrings.TrimSpace orderByField in
    '(orderByFieldSql, ok) ← convertOrderByFieldToSql orderByField;
    convertOrderByFields rest
      (if ok : bool then sqls ++ [orderByFieldSql] else sqls)
  end.

Definition convertOrderByToSql (orderBy : string) : outcome string :=
  sqls ← convertOrderByFields (gostrings.Split orderBy ",") [];
  Returns (if (length sqls =? 0)%nat then ""
           else " ORDER BY " +:+ gostrings.Join sqls ", ").

(** [orderBy] is a [*string]: [None] is the nil pointer. *)
Definition applyOrdering (query : string) (orderBy : option string)
  : outcome string :=
  match orderBy with
  | None => Returns query
  | Some orderBy =>
    orderBySql ← convertOrderByToSql orderBy;
    Returns (query +:+ orderBySql)
  end.

End WithSortableFields.
End OrderCompiler.

(** ** Values, errors and collaborators *)

(** The dynamic values ([interface{}]) passed as positional arguments. *)
Inductive value : Type :=
  | VInt (n : Z)
  | VString (s : string)
  | VBool (b : bool).

(** The [error] values the code meets: the sentinel [sql.ErrNoRows], an
    error built by [fmt.Errorf] from a format and one operand, and any
    other error of the driver or of [database/sql], by its message. *)
Inductive error : Type :=
  | ErrNoRows
  | Errorf (format : string) (operand : value)
  | errorString (msg : string).

Global Instance value_eq_dec : EqDecision value.
Proof. solve_decision. Defined.
Global Instance error_eq_dec : EqDecision error.
Proof. solve_decision. Defined.

(** [time.Time]: an instant, in nanoseconds since the Unix epoch. *)
Definition Time : Type := Z.

(** [google.protobuf.Timestamp]. *)
Record Timestamp : Type := { Seconds : Z; Nanos : Z }.

(** [ptypes.TimestampProto] of golang/protobuf: the conversion fails
    outside the years 1 to 9999. *)
Definition minValidSeconds : Z := -62135596800.
Definition maxValidSeconds : Z := 253402300800.

Definition TimestampProto (t : Time) : option Timestamp * option error :=
  let ts := {| Seconds := t / 1000000000; Nanos := t mod 1000000000 |} in
  if Seconds ts <? minValidSeconds
  then (None, Some (Errorf "timestamp: %v before 0001-01-01"
                      (VInt (Seconds ts))))
  else if maxValidSeconds <=? Seconds ts
  then (None, Some (Errorf "timestamp: %v after 10000-01-01"
                      (VInt (Seconds ts))))
  else if (Nanos ts <? 0) || (1000000000 <=? Nanos ts)
  then (None, Some (Errorf "timestamp: %v: nanos not in range [0, 1e9)"
                      (VInt (Nanos ts))))
  else (Some ts, None).

(** [sync.Once]: [Do f] runs [f] on the first call only. The state [St]
    is what [f] may change. *)
Record Once : Type := { done : bool }.

Definition Once_Do {St : Type} (o : Once) (f : St -> St) (st : St)
  : Once * St :=
  if done o then (o, st) else ({| done := true |}, f st).

(** A result cursor ([*sql.Rows]) is the list of its rows; [rows.Scan]
    on a row either fills the destinations or fails. *)
Abbreviation Rows Columns := (list (error + Columns)).

(** ** The races repository: [racing/db/races.go] *)

Module racing.

Record ListRacesRequestFilter : Type := {
  MeetingIds : list Z;
  Visible : option bool
}.

Record Race : Type := {
  Id : Z;
  MeetingId : Z;
  Name : string;
  Number : Z;
  RaceVisible : bool;
  AdvertisedStartTime : option Timestamp;
  Status : string
}.

(** The destinations of [rows.Scan] in [scanRaces]. *)
Record RaceColumns : Type := {
  colId : Z;
  colMeetingId : Z;
  colName : string;
  colNumber : Z;
  colVisible : bool;
  colAdvertisedStart : Time
}.

Definition applyFilter (query : string)
    (filter : option ListRacesRequestFilter) : string * list value :=
  let clauses : list string := [] in
  let args : list value := [] in
  match filter with
  | None => (query, args)
  | Some filter =>
    let '(clauses, args) :=
      if (0 <? length (MeetingIds filter))%nat then
        (clauses ++ ["meeting_id IN ("
                     +:+ gostrings.Repeat "?,"
                           (length (MeetingIds filter) - 1)
                     +:+ "?)"],
         foldl (fun args meetingID => args ++ [VInt meetingID])
               args (MeetingIds filter))
      else (clauses, args) in
    let '(clauses, args) :=
      match Visible filter with
      | Some visible =>
        (clauses ++ ["visible = ?"], args ++ [VBool visible])
      | None => (clauses, args)
      end in
    let query :=
      if negb (length clauses =? 0)%nat
      then query +:+ " WHERE " +:+ gostrings.Join clauses " AND "
      else query in
    (query, args)
  end.

Definition sortableFields : gmap string string :=
  list_to_map [("name", "name");
               ("number", "number");
               ("advertised_start_time", "advertised_start_time")].

Definition convertOrderByFieldToSql : string -> outcome (string * bool) :=
  OrderCompiler.convertOrderByFieldToSql sortableFields.

Definition convertOrderByToSql : string -> outcome string :=
  OrderCompiler.convertOrderByToSql sortableFields.

Definition applyOrdering : string -> option string -> outcome string :=
  OrderCompiler.applyOrdering sortableFields.

(** [now] is the reading of [time.Now()] made by the call. *)
Definition getRaceStatus (now advertisedStart : Time) : string :=
  if advertisedStart <? now then "CLOSED" else "OPEN".

(** The loop of [scanRaces] from the current row on. [clock k] is the
    [k]-th reading of [time.Now()] and [tick] counts the readings made
    so far; [races] is the slice built up to here. *)
Fixpoint scanRacesFrom (clock : nat -> Time) (tick : nat)
    (rows : Rows RaceColumns) (races : list Race)
  : list Race * option error :=
  match rows with
  | [] => (races, None)
  | inl err :: _ =>
    if decide (err = ErrNoRows) then ([], None) else ([], Some err)
  | inr cols :: rest =>
    let advertisedStart := colAdvertisedStart cols in
    match TimestampProto advertisedStart with
    | (_, Some err) => ([], Some err)
    | (ts, None) =>
      let race := {|
        Id := colId cols;
        MeetingId := colMeetingId cols;
        Name := colName cols;
        Number := colNumber cols;
        RaceVisible := colVisible cols;
        AdvertisedStartTime := ts;
        Status := getRaceStatus (clock tick) advertisedStart
      |} in
      scanRacesFrom clock (S tick) rest (races ++ [race])
    end
  end.

Definition scanRaces (clock : nat -> Time) (rows : Rows RaceColumns)
  : list Race * option error :=
  scanRacesFrom clock 0 rows [].

Section Repo.

(** The database handle, its [Query] method, the seeding of the
    dummy races and the base query [getRaceQueries()[racesList]]. *)
Variable DB : Type.
Variable Query :
  DB -> string -> list value -> Rows RaceColumns * option error.
Variable seed : DB -> DB * option error.
Variable racesListQuery : string.

Record racesRepo : Type := { db : DB; init : Once }.

Definition NewRacesRepo (db : DB) : racesRepo :=
  {| db := db; init := {| done := false |} |}.

Definition Init (r : racesRepo) : racesRepo * option error :=
  let err : option error := None in
  let '(once, (db', err)) :=
    Once_Do (init r) (fun '(db, _) => seed db) (db r, err) in
  ({| db := db'; init := once |}, err).

Definition List (clock : nat -> Time) (r : racesRepo)
    (filter : option ListRacesRequestFilter) (orderBy : option string)
  : outcome (list Race * option error) :=
  let query := racesListQuery in
  let '(query, args) := applyFilter query filter in
  query ← applyOrdering query orderBy;
  match Query (db r) query args with
  | (_, Some err) => Returns ([], Some err)
  | (rows, None) => Returns (scanRaces clock rows)
  end.

End Repo.

Arguments db {DB} _.
Arguments init {DB} _.
Arguments NewRacesRepo {DB} db.
Arguments Init {DB} seed r.
Arguments List {DB} Query racesListQuery clock r filter orderBy.

End racing.

(** ** The events repository of package [sports/db] *)

Module sports.

Record ListEventsRequestFilter : Type := {
  Sports : list string;
  Leagues : list Z;
  Visible : option bool;
  Sides : list string;
  Ids : list Z
}.

Record Event : Type := {
  Id : Z;
  Sport : string;
  League : Z;
  HomeSideName : string;
  AwaySideName : string;
  Name : string;
  EventVisible : bool;
  AdvertisedStartTime : option Timestamp;
  Status : string
}.

(** The destinations of [rows.Scan] in [scanEvents]. *)
Record EventColumns : Type := {
  colId : Z;
  colSport : string;
  colLeague : Z;
  colHomeSideName : string;
  colAwaySideName : string;
  colVisible : bool;
  colAdvertisedStart : Time
}.

Definition eventsList : string := "list".

Definition tab : string := String "009" "".
Definition nl : string := String "010" "".

(** The raw string literal of [getEventQueries], line by line. *)
Definition getEventQueries : gmap string string :=
  {[ eventsList :=
       nl
       +:+ tab +:+ tab +:+ tab +:+ "SELECT " +:+ nl
       +:+ tab +:+ tab +:+ tab +:+ tab +:+ "id, " +:+ nl
       +:+ tab +:+ tab +:+ tab +:+ tab +:+ "sport, " +:+ nl
       +:+ tab +:+ tab +:+ tab +:+ tab +:+ "league, " +:+ nl
       +:+ tab +:+ tab +:+ tab +:+ tab +:+ "home_side_name, " +:+ nl
       +:+ tab +:+ tab +:+ tab +:+ tab +:+ "away_side_name," +:+ nl
       +:+ tab +:+ tab +:+ tab +:+ tab +:+ "visible, " +:+ nl
       +:+ tab +:+ tab +:+ tab +:+ tab +:+ "advertised_start_time " +:+ nl
       +:+ tab +:+ tab +:+ tab +:+ "FROM events" +:+ nl
       +:+ tab +:+ tab ]}.

Definition applyFilter (query : string)
    (filter : option ListEventsRequestFilter) : string * list value :=
  let clauses : list string := [] in
  let args : list value := [] in
  match filter with
  | None => (query, args)
  | Some filter =>
    let '(clauses, args) :=
      if (0 <? length (Sports filter))%nat then
        (clauses ++ ["sport IN ("
                     +:+ gostrings.Repeat "?," (length (Sports filter) - 1)
                     +:+ "?)"],
         foldl (fun args sport => args ++ [VString sport])
               args (Sports filter))
      else (clauses, args) in
    let '(clauses, args) :=
      if (0 <? length (Leagues filter))%nat then
        (clauses ++ ["league IN ("
                     +:+ gostrings.Repeat "?," (length (Leagues filter) - 1)
                     +:+ "?)"],
         foldl (fun args league => args ++ [VInt league])
               args (Leagues filter))
      else (clauses, args) in
    let '(clauses, args) :=
      if (0 <? length (Sides filter))%nat then
        (clauses ++ ["(home_side_name IN ("
                     +:+ gostrings.Repeat "?," (length (Sides filter) - 1)
                     +:+ "?) OR away_side_name IN ("
                     +:+ gostrings.Repeat "?," (length (Sides filter) - 1)
                     +:+ "?))"],
         foldl (fun args side => args ++ [VString side])
               (foldl (fun args side => args ++ [VString side])
                      args (Sides filter))
               (Sides filter))
      else (clauses, args) in
    let '(clauses, args) :=
      if (0 <? length (Ids filter))%nat then
        (clauses ++ ["id IN ("
                     +:+ gostrings.Repeat "?," (length (Ids filter) - 1)
                     +:+ "?)"],
         foldl (fun args ID => args ++ [VInt ID]) args (Ids filter))
      else (clauses, args) in
    let '(clauses, args) :=
      match Visible filter with
      | Some visible =>
        (clauses ++ ["visible = ?"], args ++ [VBool visible])
      | None => (clauses, args)
      end in
    let query :=
      if negb (length clauses =? 0)%nat
      then query +:+ " WHERE " +:+ gostrings.Join clauses " AND "
      else query in
    (query, args)
  end.

Definition sortableFields : gmap string string :=
  list_to_map [("home_side_name", "home_side_name");
               ("away_side_name", "away_side_name");
               ("league", "league");
               ("sport", "sport");
               ("advertised_start_time", "advertised_start_time")].

Definition convertOrderByFieldToSql : string -> outcome (string * bool) :=
  OrderCompiler.convertOrderByFieldToSql sortableFields.

Definition convertOrderByToSql : string -> outcome string :=
  OrderCompiler.convertOrderByToSql sortableFields.

Definition applyOrdering : string -> option string -> outcome string :=
  OrderCompiler.applyOrdering sortableFields.

(** [now] is the reading of [time.Now()] made by the call. *)
Definition getEventStatus (now advertisedStart : Time) : string :=
  if advertisedStart <? now then "CLOSED" else "OPEN".

(** The loop of [scanEvents] from the current row on; [clock], [tick]
    and [events] are as in [racing.scanRacesFrom]. *)
Fixpoint scanEventsFrom (clock : nat -> Time) (tick : nat)
    (rows : Rows EventColumns) (events : list Event)
  : list Event * option error :=
  match rows with
  | [] => (events, None)
  | inl err :: _ =>
    if decide (err = ErrNoRows) then ([], None) else ([], Some err)
  | inr cols :: rest =>
    let advertisedStart := colAdvertisedStart cols in
    let name := colHomeSideName cols +:+ " vs " +:+ colAwaySideName cols in
    match TimestampProto advertisedStart with
    | (_, Some err) => ([], Some err)
    | (ts, None) =>
      let event := {|
        Id := colId cols;
        Sport := colSport cols;
        League := colLeague cols;
        HomeSideName := colHomeSideName cols;
        AwaySideName := colAwaySideName cols;
        Name := name;
        EventVisible := colVisible cols;
        AdvertisedStartTime := ts;
        Status := getEventStatus (clock tick) advertisedStart
      |} in
      scanEventsFrom clock (S tick) rest (events ++ [event])
    end
  end.

Definition scanEvents (clock : nat -> Time) (rows : Rows EventColumns)
  : list Event * option error :=
  scanEventsFrom clock 0 rows [].

Section Repo.

(** The database handle, its [Query] method and the seeding of the
    dummy events ([seed] draws them at random). *)
Variable DB : Type.
Variable Query :
  DB -> string -> list value -> Rows EventColumns * option error.
Variable seed : DB -> DB * option error.

Record eventsRepo : Type := { db : DB; init : Once }.

Definition NewEventsRepo (db : DB) : eventsRepo :=
  {| db := db; init := {| done := false |} |}.

Definition Init (r : eventsRepo) : eventsRepo * option error :=
  let err : option error := None in
  let '(once, (db', err)) :=
    Once_Do (init r) (fun '(db, _) => seed db) (db r, err) in
  ({| db := db'; init := once |}, err).

Definition List (clock : nat -> Time) (r : eventsRepo)
    (filter : option ListEventsRequestFilter) (orderBy : option string)
  : outcome (list Event * option error) :=
  let query := default "" (getEventQueries !! eventsList) in
  let '(query, args) := applyFilter query filter in
  query ← applyOrdering query orderBy;
  match Query (db r) query args with
  | (_, Some err) => Returns ([], Some err)
  | (rows, None) => Returns (scanEvents clock rows)
  end.

Definition Get (clock : nat -> Time) (r : eventsRepo) (id : Z)
  : outcome (option Event * option error) :=
  let filter := {| Sports := []; Leagues := []; Visible := None;
                   Sides := []; Ids := [id] |} in
  '(events, err) ← List clock r (Some filter) None;
  match err with
  | Some err => Returns (None, Some err)
  | None =>
    if negb (length events =? 1)%nat
    then Returns (None, Some (Errorf "no event with id: %v" (VInt id)))
    else match events !! 0%nat with
         | Some event => Returns (Some event, None)
         | None => Panics indexOutOfRange0
         end
  end.

End Repo.

Arguments db {DB} _.
Arguments init {DB} _.
Arguments NewEventsRepo {DB} db.
Arguments Init {DB} seed r.
Arguments List {DB} Query clock r filter orderBy.
Arguments Get {DB} Query clock r id.

End sports.

(** ** The sports service: package [service] *)

Module service.

Record ListEventsRequest : Type := {
  Filter : option sports.ListEventsRequestFilter;
  OrderBy : option string
}.

Record ListEventsResponse : Type := { Events : list sports.Event }.

Record GetEventRequest : Type := { Id : Z }.

Section Service.

(** The repository behind the service, with its database and clock. The
    request [in] is the message the transport hands over, never nil; the
    context is not used. *)
Variable DB : Type.
Variable Query :
  DB -> string -> list value -> Rows sports.EventColumns * option error.
Variable clock : nat -> Time.

Record sportsService : Type := { eventsRepo : sports.eventsRepo DB }.

Definition NewSportsService (eventsRepo : sports.eventsRepo DB)
  : sportsService :=
  {| eventsRepo := eventsRepo |}.

Definition ListEvents (s : sportsService) (in_ : ListEventsRequest)
  : outcome (option ListEventsResponse * option error) :=
  '(events, err) ← sports.List Query clock (eventsRepo s)
                     (Filter in_) (OrderBy in_);
  match err with
  | Some err => Returns (None, Some err)
  | None => Returns (Some {| Events := events |}, None)
  end.

Definition GetEvent (s : sportsService) (in_ : GetEventRequest)
  : outcome (option sports.Event * option error) :=
  '(event, err) ← sports.Get Query clock (eventsRepo s) (Id in_);
  match err with
  | Some err => Returns (None, Some err)
  | None => Returns (event, None)
  end.

End Service.

Arguments eventsRepo {DB} _.
Arguments NewSportsService {DB} eventsRepo.
Arguments ListEvents {DB} Query clock s in_.
Arguments GetEvent {DB} Query clock s in_.

End service.

(** ** The choice of the two sides of a seeded event: [sports/db/db.go] *)

Module seeding.

(** [rand.Intn(n)] on the shared generator: [draws k] is its [k]-th
    draw and [pos] the number of draws made so far; the draw is brought
    into [[0, n)], and a non-positive [n] panics. *)
Definition Intn (draws : nat -> nat) (pos n : nat) : outcome (nat * nat) :=
  if (n =? 0)%nat then Panics "invalid argument to Intn"
  else Returns ((draws pos mod n)%nat, S pos).

(** [sides[rand.Intn(len(sides))]]. *)
Definition pick (draws : nat -> nat) (pos : nat) (sides : list string)
  : outcome (string * nat) :=
  '(i, pos') ← Intn draws pos (length sides);
  match sides !! i with
  | Some side => Returns (side, pos')
  | None => Panics "runtime error: index out of range"
  end.

(** The loop [for away == home]; it has no bound in the source, and
    [None] is the run that is still drawing after [fuel] rounds. *)
Fixpoint redraw (fuel : nat) (draws : nat -> nat) (pos : nat)
    (sides : list string) (home away : string)
  : option (outcome (string * string * nat)) :=
  if decide (away = home) then
    match fuel with
    | O => None
    | S fuel' =>
      match pick draws pos sides with
      | Returns (away', pos') => redraw fuel' draws pos' sides home away'
      | Panics msg => Some (Panics msg)
      end
    end
  else Some (Returns (home, away, pos)).

(** The result holds the generator position the call leaves. *)
Definition select_away_and_home (fuel : nat) (draws : nat -> nat)
    (pos : nat) (sides : list string)
  : option (outcome (string * string * nat)) :=
  match pick draws pos sides with
  | Panics msg => Some (Panics msg)
  | Returns (home, pos1) =>
    match pick draws pos1 sides with
    | Panics msg => Some (Panics msg)
    | Returns (away, pos2) => redraw fuel draws pos2 sides home away
    end
  end.

End seeding.

(** ** Vocabulary of the properties *)

(** Whether an optional predicate is present. *)
Definition present {A : Type} (o : option A) : bool :=
  match o with
  | Some _ => true
  | None => false
  end.

(** The shape of a filter: which predicates it holds and how many values
    each has; [None] is the absent filter. *)
Definition raceShape (filter : option racing.ListRacesRequestFilter)
  : option (nat * bool) :=
  f ← filter;
  Some (length (racing.MeetingIds f), present (racing.Visible f)).

Definition eventShape (filter : option sports.ListEventsRequestFilter)
  : option (nat * nat * nat * nat * bool) :=
  f ← filter;
  Some (length (sports.Sports f), length (sports.Leagues f),
        length (sports.Sides f), length (sports.Ids f),
        present (sports.Visible f)).

(** The number of occurrences of a byte, here of the placeholder [?]. *)
Fixpoint countByte (c : ascii) (s : string) : nat :=
  match s with
  | "" => 0
  | String a s' => (if decide (a = c) then 1 else 0) + countByte c s'
  end%nat.

Definition placeholders : string -> nat := countByte "?".

(** The clause of a membership predicate with [n] values. *)
Definition membershipClause (field : string) (n : nat) : string :=
  field +:+ " IN (" +:+ gostrings.Repeat "?," (n - 1) +:+ "?)".

(** An opening parenthesis directly followed by a closing one, and the
    two ways a string can contribute half of such a pair. *)
Fixpoint hasEmptyParens (s : string) : bool :=
  match s with
  | "" => false
  | String a s' =>
    (if decide (a = "("%char)
     then match s' with
          | String b _ => bool_decide (b = ")"%char)
          | "" => false
          end
     else false)
    || hasEmptyParens s'
  end.

Definition startsClosed (s : string) : bool :=
  match s with
  | String b _ => bool_decide (b = ")"%char)
  | "" => false
  end.

Fixpoint endsOpen (s : string) : bool :=
  match s with
  | "" => false
  | String a "" => bool_decide (a = "("%char)
  | String _ s' => endsOpen s'
  end.

(** A piece of SQL text that cannot take part in an [()]: it is not
    empty, holds no such pair, does not begin with [)] and does not end
    with [(]. *)
Definition sealed (s : string) : Prop :=
  s ≠ "" ∧ hasEmptyParens s = false ∧ startsClosed s = false
  ∧ endsOpen s = false.

(** The clauses and arguments a filter compiles to, predicate by
    predicate: a membership predicate with no value and an absent
    exact-match predicate give none. *)
Definition membership (field : string) (n : nat) : list string :=
  if (0 <? n)%nat then [membershipClause field n] else [].

Definition sideMembership (n : nat) : list string :=
  if (0 <? n)%nat
  then ["(home_side_name IN (" +:+ gostrings.Repeat "?," (n - 1)
        +:+ "?) OR away_side_name IN (" +:+ gostrings.Repeat "?," (n - 1)
        +:+ "?))"]
  else [].

Definition exactMatch (visible : option bool) : list string :=
  match visible with
  | Some _ => ["visible = ?"]
  | None => []
  end.

Definition whereText (clauses : list string) : string :=
  match clauses with
  | [] => ""
  | _ => " WHERE " +:+ gostrings.Join clauses " AND "
  end.

Definition raceClauses (f : racing.ListRacesRequestFilter) : list string :=
  membership "meeting_id" (length (racing.MeetingIds f))
  ++ exactMatch (racing.Visible f).

Definition raceArgs (f : racing.ListRacesRequestFilter) : list value :=
  (VInt <$> racing.MeetingIds f)
  ++ (VBool <$> option_list (racing.Visible f)).

Definition eventClauses (f : sports.ListEventsRequestFilter)
  : list string :=
  membership "sport" (length (sports.Sports f))
  ++ membership "league" (length (sports.Leagues f))
  ++ sideMembership (length (sports.Sides f))
  ++ membership "id" (length (sports.Ids f))
  ++ exactMatch (sports.Visible f).

Definition eventArgs (f : sports.ListEventsRequestFilter) : list value :=
  (VString <$> sports.Sports f)
  ++ (VInt <$> sports.Leagues f)
  ++ (VString <$> sports.Sides f) ++ (VString <$> sports.Sides f)
  ++ (VInt <$> sports.Ids f)
  ++ (VBool <$> option_list (sports.Visible f)).

(** The direction token holds [desc] in some mix of upper and lower
    case. *)
Definition hasDescAnyCase (direction : string) : Prop :=
  ∃ (before after : string) (c1 c2 c3 c4 : ascii),
    direction = before +:+ String c1 (String c2 (String c3 (String c4 after)))
    ∧ (c1 = "d" ∨ c1 = "D")%char ∧ (c2 = "e" ∨ c2 = "E")%char
    ∧ (c3 = "s" ∨ c3 = "S")%char ∧ (c4 = "c" ∨ c4 = "C")%char.

(** A token of ASCII bytes none of which is white space. *)
Definition plainByte (c : ascii) : bool :=
  negb (Ascii.is_space c) && (N_of_ascii c <? 128)%N.

Fixpoint plainToken (s : string) : bool :=
  match s with
  | "" => true
  | String c s' => plainByte c && plainToken s'
  end.

(** A compiled segment: a column of the allow-list, [DESC] or not. *)
Definition allowedSegment (columns : list string) (segment : string)
  : Prop :=
  ∃ column, column ∈ columns
            ∧ (segment = column ∨ segment = column +:+ " DESC").

(** A compiled segment by the map it was looked up in. *)
Definition mappedSegment (sortableFields : gmap string string)
    (segment : string) : Prop :=
  ∃ field column,
    sortableFields !! field = Some column
    ∧ (segment = column ∨ segment = column +:+ " DESC").

(** The text the order compiler adds for the compiled segments. *)
Definition orderByClause (segments : list string) : string :=
  match segments with
  | [] => ""
  | _ => " ORDER BY " +:+ gostrings.Join segments ", "
  end.

(** The comma-separated segments of an order spec, trimmed and cut into
    tokens, as [convertOrderByToSql] sees them. *)
Definition segmentTokens (orderBy : string) : list (list string) :=
  (fun segment => gostrings.Fields (gostrings.TrimSpace segment))
    <$> gostrings.Split orderBy ",".

(** Every segment names a field, and none of them is in the map. *)
Definition unrecognizedOnly (sortableFields : gmap string string)
    (orderBy : string) : Prop :=
  Forall (fun tokens => ∃ field others,
            tokens = field :: others ∧ sortableFields !! field = None)
         (segmentTokens orderBy).

(** Some segment is empty or white space only. *)
Definition hasEmptySegment (orderBy : string) : Prop :=
  [] ∈ segmentTokens orderBy.

(** [n] successive calls of an initialisation, with the errors they
    return, first call first. *)
Fixpoint initTimes {Repo : Type} (Init : Repo -> Repo * option error)
    (n : nat) (r : Repo) : Repo * list (option error) :=
  match n with
  | O => (r, [])
  | S k =>
    let '(r', err) := Init r in
    let '(r'', errs) := initTimes Init k r' in
    (r'', err :: errs)
  end.

(** A row that materialises, and a row that fails with an error. *)
Definition timestampOf (t : Time) : option Timestamp :=
  (TimestampProto t).1.

Definition raceOf (now : Time) (cols : racing.RaceColumns) : racing.Race :=
  {| racing.Id := racing.colId cols;
     racing.MeetingId := racing.colMeetingId cols;
     racing.Name := racing.colName cols;
     racing.Number := racing.colNumber cols;
     racing.RaceVisible := racing.colVisible cols;
     racing.AdvertisedStartTime :=
       timestampOf (racing.colAdvertisedStart cols);
     racing.Status :=
       if racing.colAdvertisedStart cols <? now then "CLOSED" else "OPEN" |}.

Definition eventOf (now : Time) (cols : sports.EventColumns)
  : sports.Event :=
  {| sports.Id := sports.colId cols;
     sports.Sport := sports.colSport cols;
     sports.League := sports.colLeague cols;
     sports.HomeSideName := sports.colHomeSideName cols;
     sports.AwaySideName := sports.colAwaySideName cols;
     sports.Name :=
       sports.colHomeSideName cols +:+ " vs " +:+ sports.colAwaySideName cols;
     sports.EventVisible := sports.colVisible cols;
     sports.AdvertisedStartTime :=
       timestampOf (sports.colAdvertisedStart cols);
     sports.Status :=
       if sports.colAdvertisedStart cols <? now then "CLOSED" else "OPEN" |}.

(** The error with which a row fails to materialise, if it does: the one
    of [rows.Scan], or the one of the timestamp conversion. *)
Definition rowFailure {Columns : Type} (start : Columns -> Time)
    (row : error + Columns) : option error :=
  match row with
  | inl err => Some err
  | inr cols => (TimestampProto (start cols)).2
  end.

(** The timestamp conversion of a start time succeeds. *)
Definition converts (start : Time) : Prop :=
  (TimestampProto start).2 = None.

(** What [scanRaces] and [scanEvents] return as error when a row fails
    with [err]: the sentinel [sql.ErrNoRows] of a scan is swallowed. *)
Definition surfaced {Columns : Type} (row : error + Columns) (err : error)
  : option error :=
  match row with
  | inl ErrNoRows => None
  | _ => Some err
  end.

(** A database that counts the runs of a seeding that always fails. *)
Definition failingSeed (runs : nat) : nat * option error :=
  (S runs, Some (errorString "sql: database is closed")).

(** The events the cursor of [Get] holds for an id, by the store. *)
Definition idQuery : string :=
  default "" (sports.getEventQueries !! sports.eventsList)
  +:+ " WHERE id IN (?)".

(** Sample data: a clock standing at an instant of November 2023, and
    rows advertised one hour before it, one hour after it, and in the
    year 10000. *)
Definition hour : Time := 3600 * 1000000000.
Definition sampleNow : Time := 1700000000 * 1000000000.
Definition sampleClock : nat -> Time := fun _ => sampleNow.

Definition raceAt (id : Z) (start : Time) : racing.RaceColumns :=
  {| racing.colId := id; racing.colMeetingId := 1;
     racing.colName := "Cup"; racing.colNumber := 3;
     racing.colVisible := true; racing.colAdvertisedStart := start |}.

Definition eventAt (id : Z) (start : Time) : sports.EventColumns :=
  {| sports.colId := id; sports.colSport := "tennis";
     sports.colLeague := 12; sports.colHomeSideName := "A";
     sports.colAwaySideName := "B"; sports.colVisible := true;
     sports.colAdvertisedStart := start |}.

Definition year10000 : Time := maxValidSeconds * 1000000000.

Definition sampleRaceRows : Rows racing.RaceColumns :=
  [inr (raceAt 1 (sampleNow - hour)); inr (raceAt 2 (sampleNow + hour))].

Definition sampleEventRows : Rows sports.EventColumns :=
  [inr (eventAt 1 (sampleNow - hour)); inr (eventAt 2 (sampleNow + hour))].

(** The columns of the two allow-lists. *)
Definition raceColumns : list string :=
  ["name"; "number"; "advertised_start_time"].

Definition eventColumns : list string :=
  ["home_side_name"; "away_side_name"; "league"; "sport";
   "advertised_start_time"].

(** A store of two events, queried by id. *)
Definition twoEvents (_ : unit) (query : string) (args : list value)
  : Rows sports.EventColumns * option error :=
  (match args with
   | [VInt 1] => [inr (eventAt 1 (sampleNow - hour))]
   | [VInt 2] => [inr (eventAt 2 (sampleNow + hour))]
   | _ => []
   end, None).

(** A filter that constrains nothing: absent, or without any value and
    without visibility. *)
Definition raceUnconstrained (filter : option racing.ListRacesRequestFilter)
  : Prop :=
  match filter with
  | None => True
  | Some f => racing.MeetingIds f = [] ∧ racing.Visible f = None
  end.

Definition eventUnconstrained
    (filter : option sports.ListEventsRequestFilter) : Prop :=
  match filter with
  | None => True
  | Some f => sports.Sports f = [] ∧ sports.Leagues f = []
              ∧ sports.Sides f = [] ∧ sports.Ids f = []
              ∧ sports.Visible f = None
  end.

(** What one segment compiles to, by its tokens: nothing unless it is
    an allow-listed field alone or with one direction token. *)
Definition segmentSql (sortableFields : gmap string string)
    (tokens : list string) : option string :=
  match tokens with
  | [field] => sortableFields !! field
  | [field; direction] =>
    column ← sortableFields !! field;
    Some (if gostrings.Contains (gostrings.ToLower direction) "desc"
          then column +:+ " DESC" else column)
  | _ => None
  end.

(** The bytes of identifiers and key words: letters, [_], space and
    comma. *)
Definition sqlWordByte (c : ascii) : bool :=
  let n := N_of_ascii c in
  ((65 <=? n) && (n <=? 90) || (97 <=? n) && (n <=? 122)
   || (n =? 95) || (n =? 32) || (n =? 44))%N.

Fixpoint allBytes (P : ascii -> bool) (s : string) : bool :=
  match s with
  | "" => true
  | String c s' => P c && allBytes P s'
  end.

(** An order spec that is present and has an empty segment. *)
Definition presentEmptySegment (orderBy : option string) : Prop :=
  match orderBy with
  | Some orderBy => hasEmptySegment orderBy
  | None => False
  end.

(** The base query of the events. *)
Definition eventsBase : string :=
  default "" (sports.getEventQueries !! sports.eventsList).

(** * Properties *)

(** ** Strings *)

Section StringFacts.

Implicit Types s t u : string.

Lemma string_app_nil_l s : "" +:+ s = s.
Proof. reflexivity. Qed.

Lemma string_app_cons a s t : String a s +:+ t = String a (s +:+ t).
Proof. reflexivity. Qed.

Lemma string_app_nil_r s : s +:+ "" = s.
Proof. induction s as [|a s IH]; [done|]. by rewrite string_app_cons, IH. Qed.

Lemma string_app_assoc s t u : (s +:+ t) +:+ u = s +:+ (t +:+ u).
Proof.
  induction s as [|a s IH]; [done|]. by rewrite !string_app_cons, IH.
Qed.

Lemma string_app_eq_nil s t : s +:+ t = "" → s = "" ∧ t = "".
Proof. destruct s; [done|]. rewrite string_app_cons. discriminate. Qed.

Lemma prefix_spec s t :
  String.prefix s t = true ↔ ∃ u, t = s +:+ u.
Proof.
  revert t. induction s as [|a s IH]; intros t.
  - destruct t; simpl; split; eauto.
  - destruct t as [|b t]; simpl.
    + split; [done|]. intros [u Hu]. discriminate.
    + destruct (ascii_dec a b) as [->|Hne].
      * rewrite IH. split; intros [u Hu]; exists u.
        -- by rewrite string_app_cons, Hu.
        -- rewrite string_app_cons in Hu. by simplify_eq.
      * split; [done|]. intros [u Hu]. rewrite string_app_cons in Hu.
        by simplify_eq.
Qed.

Lemma Contains_cons a s sub :
  gostrings.Contains (String a s) sub
  = String.prefix sub (String a s) || gostrings.Contains s sub.
Proof. reflexivity. Qed.

Lemma Contains_nil sub :
  gostrings.Contains "" sub = String.prefix sub "" || false.
Proof. reflexivity. Qed.

Lemma Contains_spec s sub :
  gostrings.Contains s sub = true ↔ ∃ t u, s = t +:+ sub +:+ u.
Proof.
  induction s as [|a s IH].
  - rewrite Contains_nil, orb_false_r, prefix_spec. split.
    + intros [u Hu]. by exists "", u.
    + intros (t & u & Htu). symmetry in Htu.
      apply string_app_eq_nil in Htu as [-> Htu]. exists u. by rewrite Htu.
  - rewrite Contains_cons, orb_true_iff, prefix_spec, IH. split.
    + intros [[u Hu]|(t & u & Htu)].
      * by exists "", u.
      * exists (String a t), u. by rewrite string_app_cons, Htu.
    + intros (t & u & Htu). destruct t as [|b t].
      * left. by exists u.
      * right. rewrite string_app_cons in Htu. simplify_eq. by exists t, u.
Qed.

Lemma countByte_app c s t :
  countByte c (s +:+ t) = (countByte c s + countByte c t)%nat.
Proof.
  induction s as [|a s IH]; [done|]. rewrite string_app_cons. simpl.
  rewrite IH. lia.
Qed.

Lemma countByte_Repeat k :
  countByte "?" (gostrings.Repeat "?," k) = k.
Proof.
  induction k as [|k IH]; [done|]. simpl.
  rewrite countByte_app, IH. reflexivity.
Qed.

Lemma startsClosed_app s t :
  startsClosed (s +:+ t)
  = match s with "" => startsClosed t | _ => startsClosed s end.
Proof. by destruct s. Qed.

Lemma endsOpen_app s t :
  endsOpen (s +:+ t)
  = match t with "" => endsOpen s | _ => endsOpen t end.
Proof.
  induction s as [|a s IH].
  - by destruct t.
  - rewrite string_app_cons. destruct t as [|b t].
    + by rewrite string_app_nil_r.
    + simpl in *. rewrite IH. by destruct s.
Qed.

Lemma hasEmptyParens_app s t :
  hasEmptyParens (s +:+ t)
  = hasEmptyParens s || hasEmptyParens t || (endsOpen s && startsClosed t).
Proof.
  induction s as [|a s IH].
  - simpl. by rewrite string_app_nil_l, orb_false_r.
  - rewrite string_app_cons. simpl. rewrite IH. destruct s as [|b s].
    + rewrite string_app_nil_l. simpl. unfold startsClosed.
      destruct (decide (a = "("%char)) as [->|Hne].
      * rewrite bool_decide_eq_true_2 by done. simpl.
        destruct t as [|c t]; simpl; [done|].
        rewrite orb_false_r. apply orb_comm.
      * rewrite bool_decide_eq_false_2 by done. simpl.
        by rewrite orb_false_r.
    + rewrite string_app_cons.
      destruct (decide (a = "("%char)), (bool_decide (b = ")"%char));
        simpl; try done.
      all: by rewrite <- ?orb_assoc.
Qed.

Lemma sealed_after s t :
  s ≠ "" → hasEmptyParens s = false → startsClosed s = false →
  sealed t → sealed (s +:+ t).
Proof.
  intros Hs Hp Hc (Ht & Htp & Htc & Hto). repeat split.
  - intros [? ?]%string_app_eq_nil. done.
  - by rewrite hasEmptyParens_app, Hp, Htp, Htc, andb_false_r.
  - rewrite startsClosed_app. by destruct s.
  - rewrite endsOpen_app. by destruct t.
Qed.

Lemma sealed_app s t : sealed s → sealed t → sealed (s +:+ t).
Proof. intros (? & ? & ? & ?) ?. by apply sealed_after. Qed.

Lemma sealed_Repeat k t :
  sealed t → sealed (gostrings.Repeat "?," k +:+ t).
Proof.
  intros Ht. induction k as [|k IH]; [done|]. simpl.
  rewrite string_app_assoc. by apply sealed_after.
Qed.

Lemma sealed_Join clauses sep :
  clauses ≠ [] → Forall sealed clauses → sealed sep →
  sealed (gostrings.Join clauses sep).
Proof.
  intros Hne Hall Hsep. unfold gostrings.Join.
  induction Hall as [|c cs Hc Hcs IH]; [done|].
  destruct cs as [|c' cs]; [done|].
  change (sealed (c +:+ sep +:+ String.concat sep (c' :: cs))).
  apply sealed_app; [done|]. apply sealed_app; [done|]. by apply IH.
Qed.

Lemma Contains_empty_IN s :
  gostrings.Contains s "IN ()" = true → hasEmptyParens s = true.
Proof.
  intros (t & u & ->)%Contains_spec.
  rewrite !hasEmptyParens_app. simpl. by rewrite orb_true_r.
Qed.

Lemma ToLower_app s t :
  gostrings.ToLower (s +:+ t)
  = gostrings.ToLower s +:+ gostrings.ToLower t.
Proof.
  induction s as [|a s IH]; [done|]. rewrite string_app_cons. simpl.
  by rewrite IH.
Qed.

Lemma ToLower_app_inv d s t :
  gostrings.ToLower d = s +:+ t →
  ∃ s0 t0, d = s0 +:+ t0 ∧ gostrings.ToLower s0 = s
           ∧ gostrings.ToLower t0 = t.
Proof.
  revert d. induction s as [|a s IH]; intros d Hd.
  - by exists "", d.
  - destruct d as [|c d]; [done|]. rewrite string_app_cons in Hd. simpl in Hd.
    injection Hd as Hc Hd. apply IH in Hd as (s0 & t0 & -> & <- & <-).
    exists (String c s0), t0. by rewrite <- Hc.
Qed.

Lemma lowerByte_desc c :
  (gostrings.lowerByte c = "d" ↔ c = "d" ∨ c = "D")%char
  ∧ (gostrings.lowerByte c = "e" ↔ c = "e" ∨ c = "E")%char
  ∧ (gostrings.lowerByte c = "s" ↔ c = "s" ∨ c = "S")%char
  ∧ (gostrings.lowerByte c = "c" ↔ c = "c" ∨ c = "C")%char.
Proof.
  destruct c as [[] [] [] [] [] [] [] []]; vm_compute;
    repeat split; intros; try discriminate; auto;
    match goal with H : _ ∨ _ |- _ => destruct H; discriminate end.
Qed.

(** [strings.Contains(strings.ToLower(direction), "desc")] is the
    test for [desc] in any mix of cases. *)
Lemma Contains_ToLower_desc direction :
  gostrings.Contains (gostrings.ToLower direction) "desc" = true
  ↔ hasDescAnyCase direction.
Proof.
  rewrite Contains_spec. split.
  - intros (t & u & Hd). apply ToLower_app_inv in Hd as (t0 & r & -> & _ & Hr).
    destruct r as [|c1 [|c2 [|c3 [|c4 u0]]]]; try done.
    simpl in Hr. rewrite !string_app_cons, string_app_nil_l in Hr.
    injection Hr as H1 H2 H3 H4 _.
    exists t0, u0, c1, c2, c3, c4. split; [done|].
    apply lowerByte_desc in H1, H2, H3, H4. done.
  - intros (before & after & c1 & c2 & c3 & c4 & -> & H1 & H2 & H3 & H4).
    apply lowerByte_desc in H1, H2, H3, H4.
    exists (gostrings.ToLower before), (gostrings.ToLower after).
    rewrite ToLower_app. simpl. by rewrite H1, H2, H3, H4.
Qed.

Lemma spaceWidth_plain c s :
  plainByte c = true → gostrings.spaceWidth (String c s) = 0%nat.
Proof.
  destruct c as [[] [] [] [] [] [] [] []]; vm_compute; by try discriminate.
Qed.

Lemma fieldsFrom_plain token cur rest :
  plainToken token = true →
  gostrings.fieldsFrom 0 cur (token +:+ rest)
  = gostrings.fieldsFrom 0 (cur +:+ token) rest.
Proof.
  revert cur. induction token as [|c token IH]; intros cur Hplain.
  - by rewrite string_app_nil_l, string_app_nil_r.
  - simpl in Hplain. apply andb_true_iff in Hplain as [Hc Hplain].
    rewrite string_app_cons. cbn [gostrings.fieldsFrom].
    rewrite (spaceWidth_plain _ _ Hc), IH by done.
    by rewrite string_app_assoc.
Qed.

(** A field, one space and a direction are cut into these two tokens. *)
Lemma Fields_field_direction field direction :
  plainToken field = true → plainToken direction = true →
  field ≠ "" → direction ≠ "" →
  gostrings.Fields (field +:+ " " +:+ direction) = [field; direction].
Proof.
  intros Hf Hd Hfne Hdne. unfold gostrings.Fields.
  rewrite fieldsFrom_plain, string_app_nil_l by done.
  change (" " +:+ direction) with (String " " direction).
  cbn [gostrings.fieldsFrom]. change (gostrings.spaceWidth _) with 1%nat.
  cbv iota. rewrite <- (string_app_nil_r direction) at 1.
  rewrite fieldsFrom_plain, string_app_nil_l by done. simpl.
  by destruct field, direction.
Qed.

End StringFacts.

(** ** The filter compiler *)

Section FilterCompiler.

Lemma foldl_append_each {A} (inject : A → value) (vs : list A) args :
  foldl (fun args v => args ++ [inject v]) args vs
  = args ++ (inject <$> vs).
Proof.
  revert args. induction vs as [|v vs IH]; intros args; simpl.
  - by rewrite (right_id_L [] (++)).
  - by rewrite IH, <- (assoc_L (++)).
Qed.

(** What [racing.applyFilter] computes on a present filter. *)
Lemma race_applyFilter_eq query f :
  racing.applyFilter query (Some f)
  = (query +:+ whereText (raceClauses f), raceArgs f).
Proof.
  unfold racing.applyFilter, raceClauses, raceArgs, membership,
    membershipClause.
  destruct f as [ids [visible|]]; destruct ids as [|id ids]; simpl;
    by rewrite ?foldl_append_each, ?string_app_nil_r, ?(right_id_L [] (++)).
Qed.

(** What [sports.applyFilter] computes on a present filter. *)
Lemma event_applyFilter_eq query f :
  sports.applyFilter query (Some f)
  = (query +:+ whereText (eventClauses f), eventArgs f).
Proof.
  unfold sports.applyFilter, eventClauses, eventArgs, membership,
    sideMembership, membershipClause.
  destruct f as [sps lgs [visible|] sds ids];
    destruct sps as [|sp sps]; destruct lgs as [|lg lgs];
    destruct sds as [|sd sds]; destruct ids as [|id ids]; simpl;
    rewrite ?foldl_append_each, ?string_app_nil_r; simpl;
    rewrite ?(right_id_L [] (++)), <- ?(assoc_L (++));
    reflexivity.
Qed.

Lemma present_exactMatch (v1 v2 : option bool) :
  present v1 = present v2 → exactMatch v1 = exactMatch v2.
Proof. by destruct v1, v2. Qed.

Lemma sealed_membership field n :
  sealed field → Forall sealed (membership field n).
Proof.
  intros Hf. unfold membership, membershipClause.
  destruct (0 <? n)%nat; [|done]. apply Forall_singleton.
  apply sealed_app; [done|]. apply sealed_after; [done..|].
  by apply sealed_Repeat.
Qed.

Lemma sealed_sideMembership n : Forall sealed (sideMembership n).
Proof.
  unfold sideMembership. destruct (0 <? n)%nat; [|done].
  apply Forall_singleton. apply sealed_after; [done..|].
  apply sealed_Repeat. apply sealed_after; [done..|].
  by apply sealed_Repeat.
Qed.

Lemma sealed_exactMatch visible : Forall sealed (exactMatch visible).
Proof. destruct visible; [|done]. by apply Forall_singleton. Qed.

Lemma whereText_no_empty_IN clauses :
  Forall sealed clauses →
  gostrings.Contains (whereText clauses) "IN ()" = false.
Proof.
  intros Hall. apply not_true_is_false. intros Hin%Contains_empty_IN.
  destruct clauses as [|c cs]; [done|].
  assert (sealed (whereText (c :: cs))) as (_ & Hp & _).
  { apply sealed_after; [done..|]. by apply sealed_Join. }
  congruence.
Qed.

Lemma placeholders_membershipClause field n :
  (0 < n)%nat →
  placeholders (membershipClause field n)
  = (placeholders field + n)%nat.
Proof.
  intros Hn. unfold placeholders, membershipClause.
  rewrite !countByte_app, countByte_Repeat. simpl. lia.
Qed.

(** C1: the query text compiled from a filter, of races or of events,
    depends on the shape of the filter only (which predicates are
    present and how many values each has): two filters of one shape
    compile to the same text, whatever their values, which travel in the
    argument list alone. *)
Theorem filter_query_depends_on_shape_only
    (query : string)
    (r1 r2 : option racing.ListRacesRequestFilter)
    (e1 e2 : option sports.ListEventsRequestFilter) :
  raceShape r1 = raceShape r2 →
  eventShape e1 = eventShape e2 →
  (racing.applyFilter query r1).1 = (racing.applyFilter query r2).1
  ∧ (sports.applyFilter query e1).1 = (sports.applyFilter query e2).1.
Proof.
  intros Hr He. split.
  - destruct r1 as [f1|], r2 as [f2|]; try done.
    rewrite !race_applyFilter_eq. simpl in *. unfold raceClauses.
    simplify_eq. f_equal. f_equal. f_equal; [congruence|].
    by apply present_exactMatch.
  - destruct e1 as [f1|], e2 as [f2|]; try done.
    rewrite !event_applyFilter_eq. simpl in *. unfold eventClauses.
    simplify_eq. do 2 f_equal.
    repeat (f_equal; [congruence|]). by apply present_exactMatch.
Qed.

Lemma filter_query_depends_on_shape_only_witness :
  (racing.applyFilter "SELECT * FROM t"
     (Some {| racing.MeetingIds := [1; 2];
              racing.Visible := Some true |})).1
  = (racing.applyFilter "SELECT * FROM t"
       (Some {| racing.MeetingIds := [7; 8];
                racing.Visible := Some false |})).1
  ∧ (sports.applyFilter "SELECT * FROM t"
       (Some {| sports.Sports := ["tennis"]; sports.Leagues := [];
                sports.Visible := None;
                sports.Sides := ["x' OR 1=1 --"; "b"];
                sports.Ids := [3] |})).1
    = (sports.applyFilter "SELECT * FROM t"
         (Some {| sports.Sports := ["hockey"]; sports.Leagues := [];
                  sports.Visible := None; sports.Sides := ["c"; "d"];
                  sports.Ids := [4] |})).1.
Proof.
  apply filter_query_depends_on_shape_only; reflexivity.
Defined.

(** C5, as the code has it: a membership predicate with zero values
    compiles to no clause at all, as an absent one does. A race filter
    without meeting ids, and an event filter whose four lists are empty,
    compile to the visibility clause alone, or to the unchanged query;
    and for every filter the text added to the query holds no
    [IN ()]. *)
Theorem empty_membership_emits_no_clause
    (query : string) (visible : option bool)
    (r : option racing.ListRacesRequestFilter)
    (e : option sports.ListEventsRequestFilter) :
  racing.applyFilter query
    (Some {| racing.MeetingIds := []; racing.Visible := visible |})
  = (query +:+ whereText (exactMatch visible),
     VBool <$> option_list visible)
  ∧ sports.applyFilter query
      (Some {| sports.Sports := []; sports.Leagues := [];
               sports.Visible := visible; sports.Sides := [];
               sports.Ids := [] |})
    = (query +:+ whereText (exactMatch visible),
       VBool <$> option_list visible)
  ∧ (∃ added, (racing.applyFilter query r).1 = query +:+ added
              ∧ gostrings.Contains added "IN ()" = false)
  ∧ (∃ added, (sports.applyFilter query e).1 = query +:+ added
              ∧ gostrings.Contains added "IN ()" = false).
Proof.
  split; [by rewrite race_applyFilter_eq|].
  split; [by rewrite event_applyFilter_eq|]. split.
  - destruct r as [f|]; [|exists ""; by rewrite string_app_nil_r].
    exists (whereText (raceClauses f)). rewrite race_applyFilter_eq.
    split; [done|]. apply whereText_no_empty_IN, Forall_app.
    split; [by apply sealed_membership|apply sealed_exactMatch].
  - destruct e as [f|]; [|exists ""; by rewrite string_app_nil_r].
    exists (whereText (eventClauses f)). rewrite event_applyFilter_eq.
    split; [done|]. apply whereText_no_empty_IN.
    repeat (apply Forall_app; split);
      auto using sealed_sideMembership, sealed_exactMatch.
    all: by apply sealed_membership.
Qed.

(** C5 as stated fails: with zero meeting ids no [meeting_id IN ()]
    is emitted, and the query is returned as it came. *)
Lemma empty_membership_counterexample :
  let compiled :=
    racing.applyFilter "SELECT * FROM races"
      (Some {| racing.MeetingIds := []; racing.Visible := None |}) in
  compiled = ("SELECT * FROM races", [])
  ∧ gostrings.Contains compiled.1 "meeting_id IN ()" = false.
Proof. split; reflexivity. Qed.

(** C7: a non-empty membership filter with [n] values compiles to a
    clause with exactly [n] placeholders and passes the values, in
    order, as the arguments; the text is fixed by the field and [n], so
    holds none of the values. The side filter fills both of its
    placeholder groups: its values are passed twice, once per side
    field. *)
Theorem membership_clause_placeholders_and_args
    (query : string) (ints : list Z) (strs : list string) :
  ints ≠ [] → strs ≠ [] →
  let n := length ints in
  let m := length strs in
  let sides := "(home_side_name IN (" +:+ gostrings.Repeat "?," (m - 1)
               +:+ "?) OR away_side_name IN ("
               +:+ gostrings.Repeat "?," (m - 1) +:+ "?))" in
  racing.applyFilter query
    (Some {| racing.MeetingIds := ints; racing.Visible := None |})
  = (query +:+ " WHERE " +:+ membershipClause "meeting_id" n,
     VInt <$> ints)
  ∧ placeholders (membershipClause "meeting_id" n) = n
  ∧ sports.applyFilter query
      (Some {| sports.Sports := strs; sports.Leagues := [];
               sports.Visible := None; sports.Sides := [];
               sports.Ids := [] |})
    = (query +:+ " WHERE " +:+ membershipClause "sport" m,
       VString <$> strs)
  ∧ placeholders (membershipClause "sport" m) = m
  ∧ sports.applyFilter query
      (Some {| sports.Sports := []; sports.Leagues := ints;
               sports.Visible := None; sports.Sides := [];
               sports.Ids := [] |})
    = (query +:+ " WHERE " +:+ membershipClause "league" n,
       VInt <$> ints)
  ∧ placeholders (membershipClause "league" n) = n
  ∧ sports.applyFilter query
      (Some {| sports.Sports := []; sports.Leagues := [];
               sports.Visible := None; sports.Sides := [];
               sports.Ids := ints |})
    = (query +:+ " WHERE " +:+ membershipClause "id" n, VInt <$> ints)
  ∧ placeholders (membershipClause "id" n) = n
  ∧ sports.applyFilter query
      (Some {| sports.Sports := []; sports.Leagues := [];
               sports.Visible := None; sports.Sides := strs;
               sports.Ids := [] |})
    = (query +:+ " WHERE " +:+ sides,
       (VString <$> strs) ++ (VString <$> strs))
  ∧ placeholders sides = (m + m)%nat.
Proof.
  intros Hints Hstrs n m sides.
  assert (0 < n)%nat as Hn by (subst n; destruct ints; simpl; [done|lia]).
  assert (0 < m)%nat as Hm by (subst m; destruct strs; simpl; [done|lia]).
  rewrite race_applyFilter_eq, !event_applyFilter_eq.
  rewrite !placeholders_membershipClause by done.
  unfold raceClauses, raceArgs, eventClauses, eventArgs, membership,
    sideMembership; simpl. fold n m.
  destruct (Nat.ltb_spec 0 n); [|lia]. destruct (Nat.ltb_spec 0 m); [|lia].
  simpl. rewrite !(right_id_L [] (++)). repeat split.
  subst sides. unfold placeholders.
  rewrite !countByte_app, !countByte_Repeat. simpl. lia.
Qed.

Lemma membership_clause_placeholders_and_args_witness :
  racing.applyFilter "SELECT * FROM races"
    (Some {| racing.MeetingIds := [5; 6; 7]; racing.Visible := None |})
  = ("SELECT * FROM races WHERE meeting_id IN (?,?,?)",
     [VInt 5; VInt 6; VInt 7])
  ∧ sports.applyFilter "SELECT * FROM events"
      (Some {| sports.Sports := []; sports.Leagues := [];
               sports.Visible := None; sports.Sides := ["s1"; "s2"];
               sports.Ids := [] |})
    = ("SELECT * FROM events WHERE " +:+
       "(home_side_name IN (?,?) OR away_side_name IN (?,?))",
       [VString "s1"; VString "s2"; VString "s1"; VString "s2"]).
Proof.
  pose proof (membership_clause_placeholders_and_args
                "SELECT * FROM races" [5; 6; 7] ["s1"; "s2"]
                ltac:(discriminate) ltac:(discriminate)) as H.
  split; [exact (proj1 H)|].
  pose proof (membership_clause_placeholders_and_args
                "SELECT * FROM events" [5; 6; 7] ["s1"; "s2"]
                ltac:(discriminate) ltac:(discriminate)) as H'.
  exact (proj1 (proj2 (proj2 (proj2 (proj2 (proj2 (proj2 (proj2 (proj2 H'))))))))).
Defined.

End FilterCompiler.


(** ** The order compiler *)

Section OrderCompilerFacts.

Variable sortableFields : gmap string string.

Abbreviation fieldToSql :=
  (OrderCompiler.convertOrderByFieldToSql sortableFields).
Abbreviation fieldsToSql := (OrderCompiler.convertOrderByFields sortableFields).
Abbreviation toSql := (OrderCompiler.convertOrderByToSql sortableFields).

(** [convertOrderByFieldToSql] by the tokens of the segment. *)
Lemma fieldToSql_no_token segment :
  gostrings.Fields segment = [] →
  fieldToSql segment = Panics indexOutOfRange0.
Proof.
  intros Htok. unfold OrderCompiler.convertOrderByFieldToSql.
  by rewrite Htok.
Qed.

Lemma fieldToSql_unknown segment field others :
  gostrings.Fields segment = field :: others →
  sortableFields !! field = None →
  fieldToSql segment = Returns ("", false).
Proof.
  intros Htok Hno. unfold OrderCompiler.convertOrderByFieldToSql.
  rewrite Htok. simpl. rewrite Hno. by destruct (2 <? _)%nat.
Qed.

Lemma fieldToSql_too_long segment f d x others :
  gostrings.Fields segment = f :: d :: x :: others →
  fieldToSql segment = Returns ("", false).
Proof.
  intros Htok. unfold OrderCompiler.convertOrderByFieldToSql.
  by rewrite Htok.
Qed.

Lemma fieldToSql_field segment field column :
  gostrings.Fields segment = [field] →
  sortableFields !! field = Some column →
  fieldToSql segment = Returns (column, true).
Proof.
  intros Htok Hcol. unfold OrderCompiler.convertOrderByFieldToSql.
  rewrite Htok. simpl. by rewrite Hcol.
Qed.

Lemma fieldToSql_direction segment field direction column :
  gostrings.Fields segment = [field; direction] →
  sortableFields !! field = Some column →
  fieldToSql segment
  = Returns (if gostrings.Contains (gostrings.ToLower direction) "desc"
             then (column +:+ " DESC", true) else (column, true)).
Proof.
  intros Htok Hcol. unfold OrderCompiler.convertOrderByFieldToSql.
  rewrite Htok. simpl. rewrite Hcol.
  by destruct (gostrings.Contains _ _).
Qed.

(** The outcomes of one segment. *)
Lemma fieldToSql_outcomes segment :
  (gostrings.Fields segment = []
   ∧ fieldToSql segment = Panics indexOutOfRange0)
  ∨ fieldToSql segment = Returns ("", false)
  ∨ (∃ field column,
       sortableFields !! field = Some column
       ∧ (fieldToSql segment = Returns (column, true)
          ∨ fieldToSql segment = Returns (column +:+ " DESC", true))).
Proof.
  destruct (gostrings.Fields segment) as [|f [|d [|x others]]] eqn:Htok.
  - left. eauto using fieldToSql_no_token.
  - destruct (sortableFields !! f) as [column|] eqn:Hcol.
    + right; right. exists f, column.
      eauto using fieldToSql_field.
    + right; left. eauto using fieldToSql_unknown.
  - destruct (sortableFields !! f) as [column|] eqn:Hcol.
    + right; right. exists f, column. split; [done|].
      rewrite (fieldToSql_direction _ _ _ _ Htok Hcol).
      destruct (gostrings.Contains _ _); auto.
    + right; left. eauto using fieldToSql_unknown.
  - right; left. eauto using fieldToSql_too_long.
Qed.

Lemma fieldsToSql_mapped segments sqls out :
  fieldsToSql segments sqls = Returns out →
  ∃ new, out = sqls ++ new ∧ Forall (mappedSegment sortableFields) new.
Proof.
  revert sqls. induction segments as [|segment rest IH]; intros sqls; simpl.
  - intros [= <-]. exists []. by rewrite (right_id_L [] (++)).
  - destruct (fieldToSql_outcomes (gostrings.TrimSpace segment))
      as [[_ ->]|[->|(field & column & Hcol & [-> | ->])]]; simpl;
      [done|by apply IH|..].
    all: intros (new & -> & Hnew)%IH; eexists (_ :: new);
      rewrite <- (assoc_L (++)); split; [done|];
      apply Forall_cons; split; [|done]; exists field, column; auto.
Qed.

Lemma toSql_mapped orderBy out :
  toSql orderBy = Returns out →
  ∃ segments, Forall (mappedSegment sortableFields) segments ∧ out = orderByClause segments.
Proof.
  unfold OrderCompiler.convertOrderByToSql.
  destruct (fieldsToSql _ _) as [sqls|msg] eqn:Hloop; simpl; [|done].
  intros [= <-]. apply fieldsToSql_mapped in Hloop as (new & -> & Hnew).
  exists new. split; [done|]. by destruct new.
Qed.

Lemma fieldsToSql_unrecognized segments sqls :
  Forall (fun tokens => ∃ field others,
            tokens = field :: others ∧ sortableFields !! field = None)
         ((fun segment => gostrings.Fields (gostrings.TrimSpace segment))
            <$> segments) →
  fieldsToSql segments sqls = Returns sqls.
Proof.
  induction segments as [|segment rest IH]; simpl; [done|].
  intros [(field & others & Htok & Hno) Hrest]%Forall_cons.
  rewrite (fieldToSql_unknown _ _ _ Htok Hno). simpl. by apply IH.
Qed.

Lemma applyOrdering_unrecognized query orderBy :
  unrecognizedOnly sortableFields orderBy →
  OrderCompiler.applyOrdering sortableFields query (Some orderBy)
  = Returns query.
Proof.
  intros Hall. unfold OrderCompiler.applyOrdering,
    OrderCompiler.convertOrderByToSql.
  rewrite fieldsToSql_unrecognized by done. simpl.
  by rewrite string_app_nil_r.
Qed.

Lemma fieldsToSql_empty_segment segments sqls :
  [] ∈ ((fun segment => gostrings.Fields (gostrings.TrimSpace segment))
          <$> segments) →
  fieldsToSql segments sqls = Panics indexOutOfRange0.
Proof.
  revert sqls. induction segments as [|segment rest IH]; intros sqls; simpl.
  - by intros ?%elem_of_nil.
  - intros [Hnil|Hin]%elem_of_cons.
    + by rewrite fieldToSql_no_token.
    + destruct (fieldToSql_outcomes (gostrings.TrimSpace segment))
        as [[_ ->]|[->|(field & column & Hcol & [-> | ->])]]; simpl;
        [done|by apply IH..].
Qed.

Lemma applyOrdering_empty_segment query orderBy :
  hasEmptySegment orderBy →
  OrderCompiler.applyOrdering sortableFields query (Some orderBy)
  = Panics indexOutOfRange0.
Proof.
  intros Hin. unfold OrderCompiler.applyOrdering,
    OrderCompiler.convertOrderByToSql.
  by rewrite fieldsToSql_empty_segment.
Qed.

(** The empty segments are the only way to fail. *)
Lemma fieldsToSql_returns segments sqls :
  [] ∉ ((fun segment => gostrings.Fields (gostrings.TrimSpace segment))
          <$> segments) →
  ∃ out, fieldsToSql segments sqls = Returns out.
Proof.
  revert sqls. induction segments as [|segment rest IH]; intros sqls; simpl.
  - by exists sqls.
  - intros [Hhead Hrest]%not_elem_of_cons.
    destruct (fieldToSql_outcomes (gostrings.TrimSpace segment))
      as [[Hnil _]|[->|(field & column & Hcol & [-> | ->])]]; simpl;
      [by rewrite Hnil in Hhead|by apply IH..].
Qed.

(** The segments of C8 include every pair of plain tokens. *)
Lemma fieldToSql_plain_direction field direction column :
  plainToken field = true → plainToken direction = true →
  field ≠ "" → direction ≠ "" →
  sortableFields !! field = Some column →
  fieldToSql (field +:+ " " +:+ direction)
  = Returns (if gostrings.Contains (gostrings.ToLower direction) "desc"
             then (column +:+ " DESC", true) else (column, true)).
Proof.
  intros ? ? ? ? Hcol. apply (fieldToSql_direction _ field); [|done].
  by apply Fields_field_direction.
Qed.

Lemma applyOrdering_returns query orderBy :
  ¬ hasEmptySegment orderBy →
  ∃ added,
    OrderCompiler.applyOrdering sortableFields query (Some orderBy)
    = Returns (query +:+ added).
Proof.
  intros Hno. unfold OrderCompiler.applyOrdering,
    OrderCompiler.convertOrderByToSql.
  destruct (fieldsToSql_returns (gostrings.Split orderBy ",") [] Hno)
    as [sqls ->]. simpl. eauto.
Qed.

End OrderCompilerFacts.

Section OrderCompilerClaims.

Lemma race_mapped_allowed segment :
  mappedSegment racing.sortableFields segment →
  allowedSegment raceColumns segment.
Proof.
  intros (field & column & Hcol & Hseg). exists column. split; [|done].
  apply elem_of_list_to_map_2 in Hcol. unfold raceColumns.
  rewrite !elem_of_cons, elem_of_nil in Hcol. rewrite !elem_of_cons.
  destruct_or! Hcol; try done; simplify_eq; auto 10.
Qed.

Lemma event_mapped_allowed segment :
  mappedSegment sports.sortableFields segment →
  allowedSegment eventColumns segment.
Proof.
  intros (field & column & Hcol & Hseg). exists column. split; [|done].
  apply elem_of_list_to_map_2 in Hcol. unfold eventColumns.
  rewrite !elem_of_cons, elem_of_nil in Hcol. rewrite !elem_of_cons.
  destruct_or! Hcol; try done; simplify_eq; auto 10.
Qed.

(** C2: whatever the order spec, the text the order compiler returns
    is empty or [ORDER BY] followed by segments that are each a column
    of the resource's allow-list, alone or followed by [DESC]; and a
    spec whose segments all name a field outside the allow-list leaves
    the query without an [ORDER BY]. *)
Theorem order_by_holds_allow_listed_columns_only
    (query orderBy out : string) :
  (racing.convertOrderByToSql orderBy = Returns out →
   ∃ segments, Forall (allowedSegment raceColumns) segments
               ∧ out = orderByClause segments)
  ∧ (sports.convertOrderByToSql orderBy = Returns out →
     ∃ segments, Forall (allowedSegment eventColumns) segments
                 ∧ out = orderByClause segments)
  ∧ (unrecognizedOnly racing.sortableFields orderBy →
     racing.applyOrdering query (Some orderBy) = Returns query)
  ∧ (unrecognizedOnly sports.sortableFields orderBy →
     sports.applyOrdering query (Some orderBy) = Returns query).
Proof.
  repeat split.
  - intros (segments & Hall & ->)%toSql_mapped. exists segments.
    split; [|done]. eapply Forall_impl; [done|].
    apply race_mapped_allowed.
  - intros (segments & Hall & ->)%toSql_mapped. exists segments.
    split; [|done]. eapply Forall_impl; [done|].
    apply event_mapped_allowed.
  - apply applyOrdering_unrecognized.
  - apply applyOrdering_unrecognized.
Qed.

Lemma order_by_holds_allow_listed_columns_only_witness :
  (∃ segments, Forall (allowedSegment raceColumns) segments
               ∧ " ORDER BY number DESC, name" = orderByClause segments)
  ∧ sports.applyOrdering "SELECT * FROM events"
      (Some "name, id; DROP TABLE events") = Returns "SELECT * FROM events".
Proof.
  split.
  - apply (order_by_holds_allow_listed_columns_only
             "" "number desc, bogus, name" " ORDER BY number DESC, name").
    vm_compute. reflexivity.
  - apply (order_by_holds_allow_listed_columns_only
             "SELECT * FROM events" "name, id; DROP TABLE events" "").
    unfold unrecognizedOnly.
    assert (segmentTokens "name, id; DROP TABLE events"
            = [["name"]; ["id;"; "DROP"; "TABLE"; "events"]]) as ->
      by (vm_compute; reflexivity).
    repeat constructor; eexists _, _; (split; [reflexivity|]);
      vm_compute; reflexivity.
Defined.

(** C3 fails on the code: a segment without any token, that is an
    empty spec, an empty or white-space-only piece between commas or a
    trailing comma, is not dropped: the index [orderByFieldSplit[0]]
    is out of range and the order compiler panics. *)
Theorem order_compiler_panics_on_empty_segment (query orderBy : string) :
  hasEmptySegment orderBy →
  racing.applyOrdering query (Some orderBy) = Panics indexOutOfRange0
  ∧ sports.applyOrdering query (Some orderBy) = Panics indexOutOfRange0.
Proof. split; by apply applyOrdering_empty_segment. Qed.

Lemma order_compiler_panics_on_empty_segment_witness :
  racing.applyOrdering "SELECT * FROM races" (Some "")
  = Panics indexOutOfRange0
  ∧ sports.applyOrdering "SELECT * FROM races" (Some "")
    = Panics indexOutOfRange0.
Proof.
  apply order_compiler_panics_on_empty_segment.
  unfold hasEmptySegment.
  assert (segmentTokens "" = [[]]) as -> by (vm_compute; reflexivity).
  apply list_elem_of_here.
Defined.

(** The same at a trailing comma and at a white-space-only segment. *)
Example order_compiler_panics_examples :
  racing.convertOrderByToSql "name," = Panics indexOutOfRange0
  ∧ sports.convertOrderByToSql "league desc,  , sport"
    = Panics indexOutOfRange0.
Proof. split; vm_compute; reflexivity. Qed.

(** C8: on a segment made of an allow-listed field and a direction
    token, [DESC] is appended exactly when the token holds [desc] in
    some mix of cases, and any other token gives the bare column; and
    [name desc, number] on the race allow-list appends
    [ORDER BY name DESC, number] to the query. *)
Theorem direction_token_desc_in_any_case
    (sortableFields : gmap string string)
    (query segment field direction column : string) :
  gostrings.Fields segment = [field; direction] →
  sortableFields !! field = Some column →
  (hasDescAnyCase direction →
   OrderCompiler.convertOrderByFieldToSql sortableFields segment
   = Returns (column +:+ " DESC", true))
  ∧ (¬ hasDescAnyCase direction →
     OrderCompiler.convertOrderByFieldToSql sortableFields segment
     = Returns (column, true))
  ∧ racing.applyOrdering query (Some "name desc, number")
    = Returns (query +:+ " ORDER BY name DESC, number").
Proof.
  intros Htok Hcol.
  rewrite (fieldToSql_direction _ _ _ _ _ Htok Hcol).
  split; [|split].
  - intros Hdesc%Contains_ToLower_desc. by rewrite Hdesc.
  - intros Hnot. destruct (gostrings.Contains _ _) eqn:Hc; [|done].
    by apply Contains_ToLower_desc in Hc.
  - unfold racing.applyOrdering, OrderCompiler.applyOrdering.
    assert (OrderCompiler.convertOrderByToSql racing.sortableFields
              "name desc, number"
            = Returns " ORDER BY name DESC, number") as ->
      by (vm_compute; reflexivity).
    reflexivity.
Qed.

Lemma direction_token_desc_in_any_case_witness :
  sports.convertOrderByFieldToSql "league xDeSCx"
  = Returns ("league DESC", true).
Proof.
  assert (gostrings.Fields "league xDeSCx" = ["league"; "xDeSCx"])
    as Htok by (vm_compute; reflexivity).
  assert (sports.sortableFields !! "league" = Some "league")
    as Hcol by (vm_compute; reflexivity).
  apply (proj1 (direction_token_desc_in_any_case sports.sortableFields
                  "" _ _ _ _ Htok Hcol)).
  exists "x", "x", "D"%char, "e"%char, "S"%char, "C"%char. auto 10.
Defined.

Example direction_token_examples :
  racing.convertOrderByFieldToSql "name asc" = Returns ("name", true)
  ∧ racing.convertOrderByFieldToSql "name descending"
    = Returns ("name DESC", true)
  ∧ racing.convertOrderByFieldToSql "name garbage"
    = Returns ("name", true)
  ∧ racing.convertOrderByFieldToSql "name desc extra"
    = Returns ("", false).
Proof. repeat split; vm_compute; reflexivity. Qed.

End OrderCompilerClaims.

(** ** Row materialisation *)

Section RowMaterializer.

Variable clock : nat -> Time.

Lemma converts_timestamp start :
  converts start → TimestampProto start = (timestampOf start, None).
Proof.
  unfold converts, timestampOf. by destruct (TimestampProto start) as [? []].
Qed.

Lemma fails_timestamp start err :
  (TimestampProto start).2 = Some err →
  ∃ ts, TimestampProto start = (ts, Some err).
Proof. destruct (TimestampProto start) as [ts ?]; simpl. eauto with f_equal. Qed.

(** [scanRacesFrom] on rows that all materialise. *)
Lemma scanRacesFrom_all tick (good : list racing.RaceColumns) races :
  Forall (fun cols => converts (racing.colAdvertisedStart cols)) good →
  racing.scanRacesFrom clock tick (inr <$> good) races
  = (races ++ imap (fun i => raceOf (clock (tick + i))) good, None).
Proof.
  revert tick races.
  induction good as [|cols good IH]; intros tick races Hall; simpl.
  - by rewrite (right_id_L [] (++)).
  - apply Forall_cons in Hall as [Hc Hall].
    rewrite (converts_timestamp _ Hc), IH by done.
    rewrite <- (assoc_L (++)). simpl. rewrite Nat.add_0_r.
    do 3 f_equal. apply imap_ext. intros i x _. simpl.
    do 2 f_equal. lia.
Qed.

(** [scanRacesFrom] on rows of which one fails. *)
Lemma scanRacesFrom_failure tick good bad rest err races :
  Forall (fun cols => converts (racing.colAdvertisedStart cols)) good →
  rowFailure racing.colAdvertisedStart bad = Some err →
  racing.scanRacesFrom clock tick ((inr <$> good) ++ bad :: rest) races
  = ([], surfaced bad err).
Proof.
  revert tick races.
  induction good as [|cols good IH]; intros tick races Hall Hbad; simpl.
  - destruct bad as [e|cols]; simpl in *.
    + injection Hbad as ->. by destruct err.
    + by apply fails_timestamp in Hbad as [ts ->].
  - apply Forall_cons in Hall as [Hc Hall].
    rewrite (converts_timestamp _ Hc). by apply IH.
Qed.

(** Every cursor is of one of the two kinds. *)
Lemma rows_split {Columns : Type} (start : Columns → Time)
    (rows : Rows Columns) :
  (∃ good, rows = inr <$> good
           ∧ Forall (fun cols => converts (start cols)) good)
  ∨ (∃ good bad rest err,
       rows = (inr <$> good) ++ bad :: rest
       ∧ Forall (fun cols => converts (start cols)) good
       ∧ rowFailure start bad = Some err).
Proof.
  induction rows as [|row rows IH].
  - left. by exists [].
  - destruct (rowFailure start row) as [err|] eqn:Hrow.
    + right. by exists [], row, rows, err.
    + destruct row as [e|cols]; [done|].
      destruct IH as [(good & -> & Hall)
                     |(good & bad & rest & err & -> & Hall & Hbad)].
      * left. exists (cols :: good). split; [done|]. by apply Forall_cons.
      * right. exists (cols :: good), bad, rest, err.
        split; [done|]. split; [by apply Forall_cons|done].
Qed.

Lemma scanEventsFrom_all tick (good : list sports.EventColumns) events :
  Forall (fun cols => converts (sports.colAdvertisedStart cols)) good →
  sports.scanEventsFrom clock tick (inr <$> good) events
  = (events ++ imap (fun i => eventOf (clock (tick + i))) good, None).
Proof.
  revert tick events.
  induction good as [|cols good IH]; intros tick events Hall; simpl.
  - by rewrite (right_id_L [] (++)).
  - apply Forall_cons in Hall as [Hc Hall].
    rewrite (converts_timestamp _ Hc), IH by done.
    rewrite <- (assoc_L (++)). simpl. rewrite Nat.add_0_r.
    do 3 f_equal. apply imap_ext. intros i x _. simpl.
    do 2 f_equal. lia.
Qed.

Lemma scanEventsFrom_failure tick good bad rest err events :
  Forall (fun cols => converts (sports.colAdvertisedStart cols)) good →
  rowFailure sports.colAdvertisedStart bad = Some err →
  sports.scanEventsFrom clock tick ((inr <$> good) ++ bad :: rest) events
  = ([], surfaced bad err).
Proof.
  revert tick events.
  induction good as [|cols good IH]; intros tick events Hall Hbad; simpl.
  - destruct bad as [e|cols]; simpl in *.
    + injection Hbad as ->. by destruct err.
    + by apply fails_timestamp in Hbad as [ts ->].
  - apply Forall_cons in Hall as [Hc Hall].
    rewrite (converts_timestamp _ Hc). by apply IH.
Qed.

End RowMaterializer.

Section RowMaterializerClaims.

Variable clock : nat -> Time.

Lemma scanRaces_lookup rows i race :
  (racing.scanRaces clock rows).1 !! i = Some race →
  ∃ cols, rows !! i = Some (inr cols) ∧ race = raceOf (clock i) cols.
Proof.
  unfold racing.scanRaces.
  destruct (rows_split racing.colAdvertisedStart rows)
    as [(good & -> & Hall)|(good & bad & rest & err & -> & Hall & Hbad)].
  - rewrite scanRacesFrom_all by done. simpl.
    rewrite list_lookup_imap.
    destruct (good !! i) as [cols|] eqn:Hi; [|done].
    intros Hrace. exists cols.
    split; [by rewrite list_lookup_fmap, Hi|]. by simplify_eq/=.
  - by rewrite (scanRacesFrom_failure _ _ _ _ _ err).
Qed.

Lemma scanEvents_lookup rows i event :
  (sports.scanEvents clock rows).1 !! i = Some event →
  ∃ cols, rows !! i = Some (inr cols) ∧ event = eventOf (clock i) cols.
Proof.
  unfold sports.scanEvents.
  destruct (rows_split sports.colAdvertisedStart rows)
    as [(good & -> & Hall)|(good & bad & rest & err & -> & Hall & Hbad)].
  - rewrite scanEventsFrom_all by done. simpl.
    rewrite list_lookup_imap.
    destruct (good !! i) as [cols|] eqn:Hi; [|done].
    intros Hrace. exists cols.
    split; [by rewrite list_lookup_fmap, Hi|]. by simplify_eq/=.
  - by rewrite (scanEventsFrom_failure _ _ _ _ _ err).
Qed.

(** C6: every row that scans and converts is materialised, and the
    status of every materialised race and event is [CLOSED] when the
    advertised start of its row is strictly before the reading of the
    clock made for that row, and [OPEN] otherwise (equal or later); it is
    never anything else. [clock i] is the reading made for the [i]-th
    row. *)
Theorem status_is_open_or_closed_by_start_time
    (raceRows : Rows racing.RaceColumns)
    (eventRows : Rows sports.EventColumns) (i : nat) :
  (∀ race, (racing.scanRaces clock raceRows).1 !! i = Some race →
     ∃ cols, raceRows !! i = Some (inr cols)
       ∧ (racing.colAdvertisedStart cols < clock i →
          racing.Status race = "CLOSED")
       ∧ (clock i ≤ racing.colAdvertisedStart cols →
          racing.Status race = "OPEN")
       ∧ (racing.Status race = "OPEN" ∨ racing.Status race = "CLOSED"))
  ∧ (∀ event, (sports.scanEvents clock eventRows).1 !! i = Some event →
       ∃ cols, eventRows !! i = Some (inr cols)
         ∧ (sports.colAdvertisedStart cols < clock i →
            sports.Status event = "CLOSED")
         ∧ (clock i ≤ sports.colAdvertisedStart cols →
            sports.Status event = "OPEN")
         ∧ (sports.Status event = "OPEN"
            ∨ sports.Status event = "CLOSED"))
  ∧ (∀ good cols,
       Forall (fun cols => converts (racing.colAdvertisedStart cols)) good →
       good !! i = Some cols →
       ∃ race,
         (racing.scanRaces clock (inr <$> good)).1 !! i = Some race
         ∧ (racing.colAdvertisedStart cols < clock i →
            racing.Status race = "CLOSED")
         ∧ (clock i ≤ racing.colAdvertisedStart cols →
            racing.Status race = "OPEN"))
  ∧ (∀ good cols,
       Forall (fun cols => converts (sports.colAdvertisedStart cols)) good →
       good !! i = Some cols →
       ∃ event,
         (sports.scanEvents clock (inr <$> good)).1 !! i = Some event
         ∧ (sports.colAdvertisedStart cols < clock i →
            sports.Status event = "CLOSED")
         ∧ (clock i ≤ sports.colAdvertisedStart cols →
            sports.Status event = "OPEN")).
Proof.
  split; [|split; [|split]].
  - intros race (cols & Hrow & ->)%scanRaces_lookup. exists cols.
    split; [done|]. simpl.
    destruct (Z.ltb_spec (racing.colAdvertisedStart cols) (clock i));
      repeat split; auto; lia.
  - intros event (cols & Hrow & ->)%scanEvents_lookup. exists cols.
    split; [done|]. simpl.
    destruct (Z.ltb_spec (sports.colAdvertisedStart cols) (clock i));
      repeat split; auto; lia.
  - intros good cols Hall Hi. exists (raceOf (clock i) cols).
    unfold racing.scanRaces. rewrite scanRacesFrom_all by done. simpl.
    rewrite list_lookup_imap, Hi. split; [done|]. simpl.
    destruct (Z.ltb_spec (racing.colAdvertisedStart cols) (clock i));
      split; auto; lia.
  - intros good cols Hall Hi. exists (eventOf (clock i) cols).
    unfold sports.scanEvents. rewrite scanEventsFrom_all by done. simpl.
    rewrite list_lookup_imap, Hi. split; [done|]. simpl.
    destruct (Z.ltb_spec (sports.colAdvertisedStart cols) (clock i));
      split; auto; lia.
Qed.

(** C10: when a row fails, in [rows.Scan] or in the timestamp
    conversion, the rows before it having materialised, the scan stops
    there and returns the error of that row and no race or event,
    whatever rows follow; and an error never comes with a domain object.
    The error of a scan is any error the [Scan] of [sql.Rows] returns for
    a row [Next] has delivered, which is never [sql.ErrNoRows], the
    sentinel of the [Scan] of [sql.Row]. *)
Theorem failing_row_discards_all_rows :
  (∀ good bad rest err,
     Forall (fun cols => converts (racing.colAdvertisedStart cols)) good →
     rowFailure racing.colAdvertisedStart bad = Some err →
     bad ≠ inl ErrNoRows →
     racing.scanRaces clock ((inr <$> good) ++ bad :: rest)
     = ([], Some err))
  ∧ (∀ good bad rest err,
       Forall (fun cols => converts (sports.colAdvertisedStart cols)) good →
       rowFailure sports.colAdvertisedStart bad = Some err →
       bad ≠ inl ErrNoRows →
       sports.scanEvents clock ((inr <$> good) ++ bad :: rest)
       = ([], Some err))
  ∧ (∀ rows races err,
       racing.scanRaces clock rows = (races, Some err) → races = [])
  ∧ (∀ rows events err,
       sports.scanEvents clock rows = (events, Some err) → events = []).
Proof.
  split; [|split; [|split]].
  - intros good bad rest err Hall Hbad Hsentinel. unfold racing.scanRaces.
    rewrite (scanRacesFrom_failure _ _ _ _ _ err) by done.
    by destruct bad as [[]|].
  - intros good bad rest err Hall Hbad Hsentinel. unfold sports.scanEvents.
    rewrite (scanEventsFrom_failure _ _ _ _ _ err) by done.
    by destruct bad as [[]|].
  - intros rows races err. unfold racing.scanRaces.
    destruct (rows_split racing.colAdvertisedStart rows)
      as [(good & -> & Hall)|(good & bad & rest & e & -> & Hall & Hbad)].
    + by rewrite scanRacesFrom_all.
    + rewrite (scanRacesFrom_failure _ _ _ _ _ e) by done. by intros [= <-].
  - intros rows events err. unfold sports.scanEvents.
    destruct (rows_split sports.colAdvertisedStart rows)
      as [(good & -> & Hall)|(good & bad & rest & e & -> & Hall & Hbad)].
    + by rewrite scanEventsFrom_all.
    + rewrite (scanEventsFrom_failure _ _ _ _ _ e) by done. by intros [= <-].
Qed.

End RowMaterializerClaims.

Lemma status_is_open_or_closed_by_start_time_witness :
  (∃ cols,
     sampleRaceRows !! 0%nat = Some (inr cols)
     ∧ (racing.colAdvertisedStart cols < sampleNow →
        racing.Status (raceOf sampleNow (raceAt 1 (sampleNow - hour)))
        = "CLOSED")
     ∧ (sampleNow ≤ racing.colAdvertisedStart cols →
        racing.Status (raceOf sampleNow (raceAt 1 (sampleNow - hour)))
        = "OPEN")
     ∧ (racing.Status (raceOf sampleNow (raceAt 1 (sampleNow - hour)))
        = "OPEN"
        ∨ racing.Status (raceOf sampleNow (raceAt 1 (sampleNow - hour)))
          = "CLOSED"))
  ∧ (∃ cols,
       sampleEventRows !! 1%nat = Some (inr cols)
       ∧ (sports.colAdvertisedStart cols < sampleNow →
          sports.Status (eventOf sampleNow (eventAt 2 (sampleNow + hour)))
          = "CLOSED")
       ∧ (sampleNow ≤ sports.colAdvertisedStart cols →
          sports.Status (eventOf sampleNow (eventAt 2 (sampleNow + hour)))
          = "OPEN")
       ∧ (sports.Status (eventOf sampleNow (eventAt 2 (sampleNow + hour)))
          = "OPEN"
          ∨ sports.Status (eventOf sampleNow (eventAt 2 (sampleNow + hour)))
            = "CLOSED"))
  ∧ (∃ race,
       (racing.scanRaces sampleClock
          (inr <$> [raceAt 1 (sampleNow - hour);
                    raceAt 2 (sampleNow + hour)])).1 !! 0%nat = Some race
       ∧ (sampleNow - hour < sampleNow → racing.Status race = "CLOSED")
       ∧ (sampleNow ≤ sampleNow - hour → racing.Status race = "OPEN"))
  ∧ (∃ event,
       (sports.scanEvents sampleClock
          (inr <$> [eventAt 1 (sampleNow - hour);
                    eventAt 2 (sampleNow + hour)])).1 !! 1%nat = Some event
       ∧ (sampleNow + hour < sampleNow → sports.Status event = "CLOSED")
       ∧ (sampleNow ≤ sampleNow + hour → sports.Status event = "OPEN")).
Proof.
  split; [|split; [|split]].
  - apply (proj1 (status_is_open_or_closed_by_start_time sampleClock
                    _ [] 0)). vm_compute. reflexivity.
  - apply (proj1 (proj2 (status_is_open_or_closed_by_start_time sampleClock
                           [] _ 1))). vm_compute. reflexivity.
  - apply (proj1 (proj2 (proj2 (status_is_open_or_closed_by_start_time
                                  sampleClock [] [] 0)))
             [raceAt 1 (sampleNow - hour); raceAt 2 (sampleNow + hour)]
             (raceAt 1 (sampleNow - hour))).
    + repeat constructor.
    + reflexivity.
  - apply (proj2 (proj2 (proj2 (status_is_open_or_closed_by_start_time
                                  sampleClock [] [] 1)))
             [eventAt 1 (sampleNow - hour); eventAt 2 (sampleNow + hour)]
             (eventAt 2 (sampleNow + hour))).
    + repeat constructor.
    + reflexivity.
Defined.

(** One hour in the past is [CLOSED], one hour in the future [OPEN],
    and an event is named after its two sides. *)
Example materialised_rows :
  racing.Status <$> (racing.scanRaces sampleClock
                       [inr (raceAt 1 (sampleNow - hour));
                        inr (raceAt 2 (sampleNow + hour));
                        inr (raceAt 3 sampleNow)]).1
  = ["CLOSED"; "OPEN"; "OPEN"]
  ∧ sports.Name <$> (sports.scanEvents sampleClock
                       [inr (eventAt 1 (sampleNow - hour))]).1
    = ["A vs B"].
Proof. split; vm_compute; reflexivity. Qed.

Lemma failing_row_discards_all_rows_witness :
  racing.scanRaces sampleClock
    [inr (raceAt 1 (sampleNow - hour)); inr (raceAt 2 year10000);
     inr (raceAt 3 (sampleNow + hour))]
  = ([], Some (Errorf "timestamp: %v after 10000-01-01"
                 (VInt maxValidSeconds)))
  ∧ sports.scanEvents sampleClock
      [inr (eventAt 1 (sampleNow - hour));
       inl (errorString "sql: Scan error on column index 2");
       inr (eventAt 3 (sampleNow + hour))]
    = ([], Some (errorString "sql: Scan error on column index 2")).
Proof.
  split.
  - apply (proj1 (failing_row_discards_all_rows sampleClock)
             [raceAt 1 (sampleNow - hour)] (inr (raceAt 2 year10000))
             [inr (raceAt 3 (sampleNow + hour))]).
    + repeat constructor.
    + vm_compute. reflexivity.
    + discriminate.
  - apply (proj1 (proj2 (failing_row_discards_all_rows sampleClock))
             [eventAt 1 (sampleNow - hour)]
             (inl (errorString "sql: Scan error on column index 2"))
             [inr (eventAt 3 (sampleNow + hour))]).
    + repeat constructor.
    + reflexivity.
    + discriminate.
Defined.

(** The branch of the scans for [sql.ErrNoRows]: were [rows.Scan] to
    return the sentinel, the scan would end there with nothing, not even
    an error. The [Scan] of [sql.Rows] does not return it. *)
Example no_rows_sentinel_branch :
  racing.scanRaces sampleClock
    [inr (raceAt 1 (sampleNow - hour)); inl ErrNoRows]
  = ([], None).
Proof. vm_compute. reflexivity. Qed.

Section Repositories.

Context {DB : Type}.
Variable seed : DB → DB * option error.

Lemma race_Init_done (r : racing.racesRepo DB) :
  done (racing.init r) = true → racing.Init seed r = (r, None).
Proof.
  destruct r as [db [d]]; simpl. intros ->. reflexivity.
Qed.

Lemma event_Init_done (r : sports.eventsRepo DB) :
  done (sports.init r) = true → sports.Init seed r = (r, None).
Proof.
  destruct r as [db [d]]; simpl. intros ->. reflexivity.
Qed.

Lemma initTimes_noop {Repo : Type} (Init : Repo → Repo * option error)
    (r : Repo) (n : nat) :
  Init r = (r, None) → initTimes Init n r = (r, replicate n None).
Proof.
  intros Hnoop. induction n as [|n IH]; [done|].
  simpl. by rewrite Hnoop, IH.
Qed.

(** C4, as the code has it: of any number of calls of [Init] on a new
    repository, of races or of events, the first runs the seeding, once,
    and returns its error; every later call leaves the repository as
    it is and returns no error, whatever the first call returned. *)
Theorem init_seeds_once_and_later_calls_return_nil (db0 : DB) (n : nat) :
  initTimes (racing.Init seed) (S n) (racing.NewRacesRepo db0)
  = ({| racing.db := (seed db0).1; racing.init := {| done := true |} |},
     (seed db0).2 :: replicate n None)
  ∧ initTimes (sports.Init seed) (S n) (sports.NewEventsRepo db0)
    = ({| sports.db := (seed db0).1; sports.init := {| done := true |} |},
       (seed db0).2 :: replicate n None).
Proof.
  split.
  - cbn [initTimes]. unfold racing.Init at 1. simpl.
    destruct (seed db0) as [db1 err]. simpl.
    by rewrite initTimes_noop by by apply race_Init_done.
  - cbn [initTimes]. unfold sports.Init at 1. simpl.
    destruct (seed db0) as [db1 err]. simpl.
    by rewrite initTimes_noop by by apply event_Init_done.
Qed.

Variable Query :
  DB → string → list value → Rows sports.EventColumns * option error.
Variable clock : nat → Time.

(** C9: [Get] lists with the one-value id filter and no ordering, that
    is, it scans the rows of the base query with [WHERE id IN (?)] and
    the id as only argument; it returns the event when the list holds
    exactly one, the not-found error and no event when it holds none or
    several, and the error of the list when there is one. *)
Theorem get_lists_by_id_and_wants_one_event
    (r : sports.eventsRepo DB) (id : Z) :
  let filter := {| sports.Sports := []; sports.Leagues := [];
                   sports.Visible := None; sports.Sides := [];
                   sports.Ids := [id] |} in
  let listed :=
    match Query (sports.db r) idQuery [VInt id] with
    | (_, Some err) => ([], Some err)
    | (rows, None) => sports.scanEvents clock rows
    end in
  sports.List Query clock r (Some filter) None = Returns listed
  ∧ sports.Get Query clock r id
    = Returns match listed with
              | (_, Some err) => (None, Some err)
              | ([event], None) => (Some event, None)
              | (_, None) =>
                (None, Some (Errorf "no event with id: %v" (VInt id)))
              end.
Proof.
  intros filter listed.
  assert (sports.List Query clock r (Some filter) None = Returns listed)
    as Hlist.
  { unfold sports.List. rewrite event_applyFilter_eq. simpl.
    change (" WHERE " +:+ membershipClause "id" 1)
      with " WHERE id IN (?)".
    change (eventArgs filter) with [VInt id]. fold idQuery.
    subst listed. by destruct (Query _ _ _) as [rows [err|]]. }
  split; [done|]. unfold sports.Get. fold filter. rewrite Hlist. simpl.
  clear Hlist. clearbody listed.
  by destruct listed as [[|event [|event' events]] [err|]].
Qed.

End Repositories.

(** C4 as stated fails: when the seeding of the first call fails, the
    second call does not return that error but none; the seeding has run
    once. *)
Lemma init_second_call_counterexample :
  let '(r, errs) :=
    initTimes (sports.Init failingSeed) 2 (sports.NewEventsRepo 0%nat) in
  sports.db r = 1%nat
  ∧ errs = [Some (errorString "sql: database is closed"); None]
  ∧ errs !! 1%nat ≠ errs !! 0%nat.
Proof. repeat split. discriminate. Qed.

(** [Get] on a store of two events. *)
Example get_present_and_absent :
  sports.Get twoEvents sampleClock (sports.NewEventsRepo ()) 2
  = Returns (Some (eventOf sampleNow (eventAt 2 (sampleNow + hour))), None)
  ∧ sports.Get twoEvents sampleClock (sports.NewEventsRepo ()) 7
    = Returns (None, Some (Errorf "no event with id: %v" (VInt 7))).
Proof. split; vm_compute; reflexivity. Qed.

(** * Further properties of the repositories *)

(** ** The filter compiler, for every filter *)

Section FilterCompilerAll.

Lemma string_app_inv_self (s t : string) : s +:+ t = s → t = "".
Proof.
  intros Heq. rewrite <- (string_app_nil_r s) in Heq at 2.
  by apply (inj (String.append s)) in Heq.
Qed.

Lemma whereText_empty clauses : whereText clauses = "" ↔ clauses = [].
Proof. by destruct clauses. Qed.

Lemma sum_list_app (l k : list nat) :
  sum_list (l ++ k) = (sum_list l + sum_list k)%nat.
Proof. induction l as [|x l IH]; simpl; [done|]. rewrite IH. lia. Qed.

Lemma placeholders_Join clauses :
  placeholders (gostrings.Join clauses " AND ")
  = sum_list (placeholders <$> clauses).
Proof.
  unfold gostrings.Join, placeholders.
  induction clauses as [|c [|c' clauses] IH]; [done| |].
  - simpl. lia.
  - change (String.concat " AND " (c :: c' :: clauses))
      with (c +:+ " AND " +:+ String.concat " AND " (c' :: clauses)).
    rewrite !countByte_app, IH. simpl. lia.
Qed.

Lemma placeholders_whereText clauses :
  placeholders (whereText clauses) = sum_list (placeholders <$> clauses).
Proof.
  destruct clauses as [|c clauses]; [done|].
  unfold whereText. unfold placeholders at 1. rewrite countByte_app.
  fold placeholders. by rewrite placeholders_Join.
Qed.

Lemma placeholders_membership field n :
  placeholders field = 0%nat →
  sum_list (placeholders <$> membership field n) = n.
Proof.
  intros Hfield. unfold membership.
  destruct (Nat.ltb_spec 0 n) as [Hn|Hn]; simpl.
  - rewrite placeholders_membershipClause by done. lia.
  - lia.
Qed.

Lemma placeholders_sideMembership n :
  sum_list (placeholders <$> sideMembership n) = (n + n)%nat.
Proof.
  unfold sideMembership.
  destruct (Nat.ltb_spec 0 n) as [Hn|Hn]; simpl; [|lia].
  unfold placeholders. rewrite !countByte_app, !countByte_Repeat.
  simpl. lia.
Qed.

Lemma placeholders_exactMatch visible :
  sum_list (placeholders <$> exactMatch visible)
  = length (option_list visible).
Proof. by destruct visible. Qed.

Lemma membership_nil field n : membership field n = [] ↔ n = 0%nat.
Proof. unfold membership. by destruct n. Qed.

Lemma sideMembership_nil n : sideMembership n = [] ↔ n = 0%nat.
Proof. unfold sideMembership. by destruct n. Qed.

Lemma exactMatch_nil visible : exactMatch visible = [] ↔ visible = None.
Proof. by destruct visible. Qed.

(** X1: the filter compiler returns the query as it came exactly when
    the filter constrains nothing (it is absent, or has no value in any
    list and no visibility), and then it passes no argument. *)
Theorem filter_unchanged_iff_unconstrained
    (query : string)
    (r : option racing.ListRacesRequestFilter)
    (e : option sports.ListEventsRequestFilter) :
  ((racing.applyFilter query r).1 = query ↔ raceUnconstrained r)
  ∧ ((sports.applyFilter query e).1 = query ↔ eventUnconstrained e)
  ∧ (raceUnconstrained r → (racing.applyFilter query r).2 = [])
  ∧ (eventUnconstrained e → (sports.applyFilter query e).2 = []).
Proof.
  split; [|split; [|split]].
  - destruct r as [f|]; [|done]. rewrite race_applyFilter_eq. simpl.
    split.
    + intros Hq%string_app_inv_self%whereText_empty.
      apply app_eq_nil in Hq as [Hm%membership_nil Hv%exactMatch_nil].
      by apply length_zero_iff_nil in Hm.
    + intros [Hm Hv]. unfold raceClauses. rewrite Hm, Hv. simpl.
      apply string_app_nil_r.
  - destruct e as [f|]; [|done]. rewrite event_applyFilter_eq. simpl.
    split.
    + intros Hq%string_app_inv_self%whereText_empty.
      unfold eventClauses in Hq.
      apply app_eq_nil in Hq as [H1%membership_nil Hq].
      apply app_eq_nil in Hq as [H2%membership_nil Hq].
      apply app_eq_nil in Hq as [H3%sideMembership_nil Hq].
      apply app_eq_nil in Hq as [H4%membership_nil H5%exactMatch_nil].
      by repeat split; try apply length_zero_iff_nil.
    + intros (H1 & H2 & H3 & H4 & H5). unfold eventClauses.
      rewrite H1, H2, H3, H4, H5. simpl. apply string_app_nil_r.
  - destruct r as [f|]; [|done]. rewrite race_applyFilter_eq. simpl.
    intros [Hm Hv]. unfold raceArgs. by rewrite Hm, Hv.
  - destruct e as [f|]; [|done]. rewrite event_applyFilter_eq. simpl.
    intros (H1 & H2 & H3 & H4 & H5). unfold eventArgs.
    by rewrite H1, H2, H3, H4, H5.
Qed.

Lemma filter_unchanged_iff_unconstrained_witness :
  (racing.applyFilter "SELECT * FROM races"
     (Some {| racing.MeetingIds := []; racing.Visible := None |})).1
  = "SELECT * FROM races"
  ∧ (sports.applyFilter "SELECT * FROM races"
       (Some {| sports.Sports := []; sports.Leagues := [];
                sports.Visible := None; sports.Sides := [];
                sports.Ids := [] |})).2 = [].
Proof.
  split.
  - by apply (proj1 (filter_unchanged_iff_unconstrained _ _ None)).
  - by apply (proj2 (proj2 (proj2 (filter_unchanged_iff_unconstrained
                                     _ None _)))).
Defined.

Lemma race_applyFilter_placeholders query r :
  ∃ added, (racing.applyFilter query r).1 = query +:+ added
           ∧ placeholders added = length (racing.applyFilter query r).2.
Proof.
  destruct r as [f|]; [|exists ""; by rewrite string_app_nil_r].
  rewrite race_applyFilter_eq. eexists. split; [done|]. simpl.
  rewrite placeholders_whereText. unfold raceClauses, raceArgs.
  rewrite fmap_app, sum_list_app, placeholders_membership,
    placeholders_exactMatch by done.
  by rewrite length_app, !length_fmap.
Qed.

Lemma event_applyFilter_placeholders query e :
  ∃ added, (sports.applyFilter query e).1 = query +:+ added
           ∧ placeholders added = length (sports.applyFilter query e).2.
Proof.
  destruct e as [f|]; [|exists ""; by rewrite string_app_nil_r].
  rewrite event_applyFilter_eq. eexists. split; [done|]. simpl.
  rewrite placeholders_whereText. unfold eventClauses, eventArgs.
  rewrite !fmap_app, !sum_list_app, !placeholders_membership,
    placeholders_sideMembership, placeholders_exactMatch by done.
  rewrite !length_app, !length_fmap. lia.
Qed.


(** X3: on a present filter the clauses come in one fixed order, for
    events sport, league, sides, id and visibility, each only when its
    predicate has a value, joined by [AND] behind a single [WHERE]; the
    arguments come in the same order, the side values twice. *)
Theorem filter_clauses_in_fixed_order
    (query : string)
    (r : racing.ListRacesRequestFilter)
    (e : sports.ListEventsRequestFilter) :
  racing.applyFilter query (Some r)
  = (query +:+ whereText
       (membership "meeting_id" (length (racing.MeetingIds r))
        ++ exactMatch (racing.Visible r)),
     (VInt <$> racing.MeetingIds r)
     ++ (VBool <$> option_list (racing.Visible r)))
  ∧ sports.applyFilter query (Some e)
    = (query +:+ whereText
         (membership "sport" (length (sports.Sports e))
          ++ membership "league" (length (sports.Leagues e))
          ++ sideMembership (length (sports.Sides e))
          ++ membership "id" (length (sports.Ids e))
          ++ exactMatch (sports.Visible e)),
       (VString <$> sports.Sports e)
       ++ (VInt <$> sports.Leagues e)
       ++ (VString <$> sports.Sides e) ++ (VString <$> sports.Sides e)
       ++ (VInt <$> sports.Ids e)
       ++ (VBool <$> option_list (sports.Visible e))).
Proof. split; [apply race_applyFilter_eq|apply event_applyFilter_eq]. Qed.

End FilterCompilerAll.

(** ** The order compiler, segment by segment *)

Section OrderCompilerAll.

Variable sortableFields : gmap string string.

Lemma fieldToSql_segmentSql segment :
  gostrings.Fields segment ≠ [] →
  OrderCompiler.convertOrderByFieldToSql sortableFields segment
  = Returns match segmentSql sortableFields (gostrings.Fields segment) with
            | Some sql => (sql, true)
            | None => ("", false)
            end.
Proof.
  intros Hne.
  destruct (gostrings.Fields segment) as [|f [|d [|x others]]] eqn:Htok;
    [done|..]; simpl.
  - destruct (sortableFields !! f) as [column|] eqn:Hcol.
    + by apply fieldToSql_field with f.
    + by apply fieldToSql_unknown with f [].
  - destruct (sortableFields !! f) as [column|] eqn:Hcol; simpl.
    + rewrite (fieldToSql_direction _ _ _ _ _ Htok Hcol).
      by destruct (gostrings.Contains _ _).
    + by apply fieldToSql_unknown with f [d].
  - by apply fieldToSql_too_long with f d x others.
Qed.

Lemma fieldsToSql_omap segments sqls :
  [] ∉ ((fun segment => gostrings.Fields (gostrings.TrimSpace segment))
          <$> segments) →
  OrderCompiler.convertOrderByFields sortableFields segments sqls
  = Returns (sqls ++ omap (segmentSql sortableFields)
               ((fun segment =>
                   gostrings.Fields (gostrings.TrimSpace segment))
                  <$> segments)).
Proof.
  revert sqls. induction segments as [|segment rest IH]; intros sqls.
  - intros _. simpl. by rewrite (right_id_L [] (++)).
  - rewrite fmap_cons. intros [Hhead Hrest]%not_elem_of_cons.
    cbn [OrderCompiler.convertOrderByFields omap list_omap].
    rewrite fieldToSql_segmentSql by done.
    destruct (segmentSql _ _) as [sql|]; simpl.
    + rewrite IH by done. by rewrite <- (assoc_L (++)).
    + by apply IH.
Qed.

(** X5: when no segment is empty, the order compiler compiles each
    segment on its own, an allow-listed field alone or with one
    direction token to its column, with [DESC] or without, and anything
    else to nothing, and joins what is left in the order of the spec,
    repeated fields included. *)
Theorem order_by_compiles_segment_by_segment (orderBy : string) :
  ¬ hasEmptySegment orderBy →
  OrderCompiler.convertOrderByToSql sortableFields orderBy
  = Returns (orderByClause
               (omap (segmentSql sortableFields) (segmentTokens orderBy))).
Proof.
  intros Hno. unfold OrderCompiler.convertOrderByToSql.
  rewrite fieldsToSql_omap by done. simpl. unfold segmentTokens.
  by destruct (omap _ _).
Qed.

(** X4: the order compiler panics exactly on the specs with a segment
    that holds no token; on every other spec it returns the query with
    some text added, never an error. *)
Theorem order_compiler_fails_exactly_on_empty_segments
    (query orderBy : string) :
  (hasEmptySegment orderBy
   ↔ OrderCompiler.applyOrdering sortableFields query (Some orderBy)
     = Panics indexOutOfRange0)
  ∧ (¬ hasEmptySegment orderBy
     ↔ ∃ added,
         OrderCompiler.applyOrdering sortableFields query (Some orderBy)
         = Returns (query +:+ added)).
Proof.
  unfold hasEmptySegment.
  destruct (decide ([] ∈ segmentTokens orderBy)) as [Hin|Hno].
  - pose proof (applyOrdering_empty_segment sortableFields query _ Hin)
      as Hpanic.
    split; split; try done.
    intros [added Hret]. congruence.
  - destruct (applyOrdering_returns sortableFields query _ Hno)
      as [added Hret].
    split; split; try done; [congruence|eauto].
Qed.

End OrderCompilerAll.

Lemma order_by_compiles_segment_by_segment_witness :
  racing.convertOrderByToSql " number , name DESC,bogus,number x y, number"
  = Returns " ORDER BY number, name DESC, number".
Proof.
  apply (order_by_compiles_segment_by_segment racing.sortableFields).
  unfold hasEmptySegment.
  assert (segmentTokens " number , name DESC,bogus,number x y, number"
          = [["number"]; ["name"; "DESC"]; ["bogus"];
             ["number"; "x"; "y"]; ["number"]]) as ->
    by (vm_compute; reflexivity).
  rewrite !elem_of_cons, elem_of_nil. intros H.
  destruct_or! H; done.
Defined.

Lemma order_compiler_fails_exactly_on_empty_segments_witness :
  hasEmptySegment "name,,number"
  ∧ ∃ added,
      sports.applyOrdering "SELECT * FROM events" (Some "league, sport desc")
      = Returns ("SELECT * FROM events" +:+ added).
Proof.
  split.
  - apply (proj1 (order_compiler_fails_exactly_on_empty_segments
                    racing.sortableFields "" "name,,number")).
    vm_compute. reflexivity.
  - apply (proj2 (order_compiler_fails_exactly_on_empty_segments
                    sports.sortableFields "SELECT * FROM events"
                    "league, sport desc")).
    unfold hasEmptySegment.
    assert (segmentTokens "league, sport desc"
            = [["league"]; ["sport"; "desc"]]) as ->
      by (vm_compute; reflexivity).
    rewrite !elem_of_cons, elem_of_nil. intros H. destruct_or! H; done.
Defined.

(** ** What the order compiler can write *)

Section OrderCompilerBytes.

Lemma allBytes_app P s t :
  allBytes P (s +:+ t) = allBytes P s && allBytes P t.
Proof.
  induction s as [|c s IH]; [done|]. rewrite string_app_cons. simpl.
  by rewrite IH, andb_assoc.
Qed.

Lemma allBytes_Join P segments sep :
  allBytes P sep = true → Forall (fun s => allBytes P s = true) segments →
  allBytes P (gostrings.Join segments sep) = true.
Proof.
  intros Hsep Hall. unfold gostrings.Join.
  induction Hall as [|s [|s' segments] Hs Hrest IH]; [done..|].
  change (String.concat sep (s :: s' :: segments))
    with (s +:+ sep +:+ String.concat sep (s' :: segments)).
  by rewrite !allBytes_app, Hs, Hsep, IH.
Qed.

Lemma allBytes_countByte P c s :
  allBytes P s = true → P c = false → countByte c s = 0%nat.
Proof.
  intros Hall Hc. induction s as [|a s IH]; [done|]. simpl in *.
  apply andb_true_iff in Hall as [Ha Hall]. rewrite IH by done.
  destruct (decide (a = c)) as [->|]; [congruence|done].
Qed.

Lemma allowed_allBytes columns segment :
  Forall (fun column => allBytes sqlWordByte column = true) columns →
  allowedSegment columns segment → allBytes sqlWordByte segment = true.
Proof.
  intros Hcols (column & Hin & Hseg).
  rewrite Forall_forall in Hcols. specialize (Hcols _ Hin).
  destruct Hseg as [-> | ->]; [done|]. by rewrite allBytes_app, Hcols.
Qed.

Lemma orderByClause_allBytes columns segments :
  Forall (fun column => allBytes sqlWordByte column = true) columns →
  Forall (allowedSegment columns) segments →
  allBytes sqlWordByte (orderByClause segments) = true.
Proof.
  intros Hcols Hall. destruct segments as [|s segments]; [done|].
  unfold orderByClause. rewrite allBytes_app. apply andb_true_iff.
  split; [done|]. apply allBytes_Join; [done|].
  eapply Forall_impl; [done|]. intros ?. by apply allowed_allBytes.
Qed.

Lemma race_order_allBytes orderBy out :
  racing.convertOrderByToSql orderBy = Returns out →
  allBytes sqlWordByte out = true.
Proof.
  intros (segments & Hall & ->)%toSql_mapped.
  apply (orderByClause_allBytes raceColumns); [by repeat constructor|].
  eapply Forall_impl; [done|]. apply race_mapped_allowed.
Qed.

Lemma event_order_allBytes orderBy out :
  sports.convertOrderByToSql orderBy = Returns out →
  allBytes sqlWordByte out = true.
Proof.
  intros (segments & Hall & ->)%toSql_mapped.
  apply (orderByClause_allBytes eventColumns); [by repeat constructor|].
  eapply Forall_impl; [done|]. apply event_mapped_allowed.
Qed.

(** X6: whatever the order spec holds, the text the order compiler
    returns for races and for events is made of letters, underscores,
    spaces and commas only: no quote, semicolon, parenthesis, dash or
    placeholder of the spec can reach the query. *)
Theorem order_by_text_is_words_only (orderBy raceOut eventOut : string) :
  racing.convertOrderByToSql orderBy = Returns raceOut →
  sports.convertOrderByToSql orderBy = Returns eventOut →
  allBytes sqlWordByte raceOut = true
  ∧ allBytes sqlWordByte eventOut = true
  ∧ placeholders raceOut = 0%nat ∧ placeholders eventOut = 0%nat.
Proof.
  intros Hr He.
  pose proof (race_order_allBytes _ _ Hr) as Hrb.
  pose proof (event_order_allBytes _ _ He) as Heb.
  repeat split; try done.
  all: by eapply allBytes_countByte.
Qed.

End OrderCompilerBytes.

Lemma order_by_text_is_words_only_witness :
  allBytes sqlWordByte " ORDER BY advertised_start_time DESC" = true
  ∧ allBytes sqlWordByte " ORDER BY advertised_start_time DESC" = true
  ∧ placeholders " ORDER BY advertised_start_time DESC" = 0%nat
  ∧ placeholders " ORDER BY advertised_start_time DESC" = 0%nat.
Proof.
  apply (order_by_text_is_words_only
           "name'; DROP TABLE races --, advertised_start_time desc;--");
    vm_compute; reflexivity.
Defined.

(** ** Listing, getting and the service *)

Section Listing.

Lemma applyOrdering_inv sortableFields query orderBy sent :
  OrderCompiler.applyOrdering sortableFields query orderBy = Returns sent →
  ∃ orderText,
    sent = query +:+ orderText
    ∧ match orderBy with
      | None => orderText = ""
      | Some spec =>
        OrderCompiler.convertOrderByToSql sortableFields spec
        = Returns orderText
      end.
Proof.
  destruct orderBy as [spec|]; simpl.
  - destruct (OrderCompiler.convertOrderByToSql _ _) as [text|] eqn:Htext;
      simpl; [|done].
    intros [= <-]. by exists text.
  - intros [= <-]. exists "". by rewrite string_app_nil_r.
Qed.

Lemma applyOrdering_panics_iff sortableFields query orderBy :
  (presentEmptySegment orderBy →
   OrderCompiler.applyOrdering sortableFields query orderBy
   = Panics indexOutOfRange0)
  ∧ (¬ presentEmptySegment orderBy →
     ∃ sent, OrderCompiler.applyOrdering sortableFields query orderBy
             = Returns sent).
Proof.
  destruct orderBy as [spec|]; simpl.
  - split; [apply applyOrdering_empty_segment|].
    intros [added Hret]%(applyOrdering_returns sortableFields query). eauto.
  - split; [done|eauto].
Qed.

Context {DB : Type}.
Variable clock : nat → Time.

(** X7: when the order compiler returns, [List] of the events sends the
    database one query, the base query followed by the text of the
    filter and then by the text of the order spec, with the arguments of
    the filter; that query has exactly as many placeholders as there are
    arguments. The result is the scan of the rows, or the error of the
    database with no event. *)
Theorem events_list_sends_filter_then_order
    (Query : DB → string → list value
             → Rows sports.EventColumns * option error)
    (r : sports.eventsRepo DB)
    (filter : option sports.ListEventsRequestFilter)
    (orderBy : option string) (sent : string) :
  let compiled := sports.applyFilter eventsBase filter in
  sports.applyOrdering compiled.1 orderBy = Returns sent →
  sports.List Query clock r filter orderBy
  = Returns match Query (sports.db r) sent compiled.2 with
            | (_, Some err) => ([], Some err)
            | (rows, None) => sports.scanEvents clock rows
            end
  ∧ placeholders sent = length compiled.2
  ∧ ∃ whereText orderText,
      sent = eventsBase +:+ whereText +:+ orderText
      ∧ compiled.1 = eventsBase +:+ whereText
      ∧ allBytes sqlWordByte orderText = true.
Proof.
  intros compiled Hsent.
  destruct (event_applyFilter_placeholders eventsBase filter)
    as (whereT & Hwhere & Hcount). fold compiled in Hwhere, Hcount.
  pose proof Hsent as (orderT & -> & Horder)%applyOrdering_inv.
  assert (allBytes sqlWordByte orderT = true) as Hbytes.
  { destruct orderBy as [spec|]; [|by subst].
    by apply event_order_allBytes in Horder. }
  split; [|split].
  - unfold sports.List. fold eventsBase. fold compiled.
    destruct compiled as [query args]. simpl in *. rewrite Hsent. simpl.
    by destruct (Query _ _ _) as [rows [err|]].
  - rewrite Hwhere. unfold placeholders in *. rewrite !countByte_app, Hcount.
    rewrite (allBytes_countByte sqlWordByte "?" orderT) by done.
    change (countByte "?" eventsBase) with 0%nat. lia.
  - exists whereT, orderT. rewrite Hwhere. by rewrite string_app_assoc.
Qed.

(** X8: when the order compiler returns, [List] of the races sends the
    database one query, the base query followed by the text of the
    filter and then by the text of the order spec, with the arguments of
    the filter; over a base query without placeholder that query has
    exactly as many placeholders as there are arguments. The result is
    the scan of the rows, or the error of the database with no race. *)
Theorem races_list_sends_filter_then_order
    (Query : DB → string → list value
             → Rows racing.RaceColumns * option error)
    (racesListQuery : string) (r : racing.racesRepo DB)
    (filter : option racing.ListRacesRequestFilter)
    (orderBy : option string) (sent : string) :
  let compiled := racing.applyFilter racesListQuery filter in
  placeholders racesListQuery = 0%nat →
  racing.applyOrdering compiled.1 orderBy = Returns sent →
  racing.List Query racesListQuery clock r filter orderBy
  = Returns match Query (racing.db r) sent compiled.2 with
            | (_, Some err) => ([], Some err)
            | (rows, None) => racing.scanRaces clock rows
            end
  ∧ placeholders sent = length compiled.2
  ∧ ∃ whereText orderText,
      sent = racesListQuery +:+ whereText +:+ orderText
      ∧ compiled.1 = racesListQuery +:+ whereText
      ∧ allBytes sqlWordByte orderText = true.
Proof.
  intros compiled Hbase Hsent.
  destruct (race_applyFilter_placeholders racesListQuery filter)
    as (whereT & Hwhere & Hcount). fold compiled in Hwhere, Hcount.
  pose proof Hsent as (orderT & -> & Horder)%applyOrdering_inv.
  assert (allBytes sqlWordByte orderT = true) as Hbytes.
  { destruct orderBy as [spec|]; [|by subst].
    by apply race_order_allBytes in Horder. }
  split; [|split].
  - unfold racing.List. fold compiled.
    destruct compiled as [query args]. simpl in *. rewrite Hsent. simpl.
    by destruct (Query _ _ _) as [rows [err|]].
  - rewrite Hwhere. unfold placeholders in *. rewrite !countByte_app, Hcount.
    rewrite (allBytes_countByte sqlWordByte "?" orderT) by done. lia.
  - exists whereT, orderT. rewrite Hwhere. by rewrite string_app_assoc.
Qed.

End Listing.

Lemma events_list_sends_filter_then_order_witness :
  sports.List twoEvents sampleClock (sports.NewEventsRepo ())
    (Some {| sports.Sports := []; sports.Leagues := [];
             sports.Visible := None; sports.Sides := [];
             sports.Ids := [2] |})
    (Some "sport desc")
  = Returns ([eventOf sampleNow (eventAt 2 (sampleNow + hour))], None)
  ∧ placeholders (eventsBase +:+ " WHERE id IN (?)"
                  +:+ " ORDER BY sport DESC") = 1%nat.
Proof.
  pose proof (events_list_sends_filter_then_order sampleClock twoEvents
                (sports.NewEventsRepo ())
                (Some {| sports.Sports := []; sports.Leagues := [];
                         sports.Visible := None; sports.Sides := [];
                         sports.Ids := [2] |})
                (Some "sport desc")
                (eventsBase +:+ " WHERE id IN (?)"
                 +:+ " ORDER BY sport DESC")
                ltac:(vm_compute; reflexivity)) as (Hlist & Hcount & _).
  split; [|exact Hcount].
  rewrite Hlist. vm_compute. reflexivity.
Defined.

Lemma races_list_sends_filter_then_order_witness :
  placeholders "SELECT id FROM races WHERE meeting_id IN (?,?) ORDER BY name"
  = 2%nat.
Proof.
  refine (proj1 (proj2 (races_list_sends_filter_then_order sampleClock
            (fun (_ : unit) _ _ => ([], None)) "SELECT id FROM races"
            (racing.NewRacesRepo ())
            (Some {| racing.MeetingIds := [4; 5]; racing.Visible := None |})
            (Some "name")
            "SELECT id FROM races WHERE meeting_id IN (?,?) ORDER BY name"
            _ _))); vm_compute; reflexivity.
Defined.

Section Service.

Context {DB : Type}.
Variable Query :
  DB → string → list value → Rows sports.EventColumns * option error.
Variable clock : nat → Time.

Lemma scanEvents_error_nil rows :
  (sports.scanEvents clock rows).2 ≠ None →
  (sports.scanEvents clock rows).1 = [].
Proof.
  unfold sports.scanEvents.
  destruct (rows_split sports.colAdvertisedStart rows)
    as [(good & -> & Hall)|(good & bad & rest & e & -> & Hall & Hbad)].
  - by rewrite scanEventsFrom_all.
  - by rewrite (scanEventsFrom_failure _ _ _ _ _ e).
Qed.

Lemma event_List_outcome r filter orderBy :
  (presentEmptySegment orderBy →
   sports.List Query clock r filter orderBy = Panics indexOutOfRange0)
  ∧ (¬ presentEmptySegment orderBy →
     ∃ events err,
       sports.List Query clock r filter orderBy = Returns (events, err)
       ∧ (err ≠ None → events = [])).
Proof.
  unfold sports.List.
  destruct (sports.applyFilter _ filter) as [query args].
  destruct (applyOrdering_panics_iff sports.sortableFields query orderBy)
    as [Hpanic Hret].
  split.
  - intros Hempty. unfold sports.applyOrdering. by rewrite Hpanic.
  - intros [sent Hsent]%Hret. unfold sports.applyOrdering.
    rewrite Hsent. simpl.
    destruct (Query _ _ _) as [rows [err|]]; [by eauto|].
    exists (sports.scanEvents clock rows).1, (sports.scanEvents clock rows).2.
    split; [by destruct (sports.scanEvents clock rows)|].
    apply scanEvents_error_nil.
Qed.

(** X9: [ListEvents] panics exactly on the requests whose [order_by] is
    present and has a segment without token, whatever the filter and
    the database hold. On every other request it returns either a
    response and no error, or no response and an error. *)
Theorem list_events_panics_exactly_on_empty_segment
    (s : service.sportsService DB) (in_ : service.ListEventsRequest) :
  (presentEmptySegment (service.OrderBy in_) →
   service.ListEvents Query clock s in_ = Panics indexOutOfRange0)
  ∧ (¬ presentEmptySegment (service.OrderBy in_) →
     ∃ response err,
       service.ListEvents Query clock s in_ = Returns (response, err)
       ∧ (is_Some response ↔ err = None)).
Proof.
  unfold service.ListEvents.
  destruct (event_List_outcome (service.eventsRepo s) (service.Filter in_)
              (service.OrderBy in_)) as [Hpanic Hret].
  split.
  - intros Hempty. by rewrite Hpanic.
  - intros (events & err & -> & _)%Hret. simpl.
    destruct err as [err|]; eexists _, _; (split; [done|]).
    + split; [by intros [? ?]|done].
    + by split.
Qed.

(** X10: [Get] never panics, and it returns either an event and no
    error or no event and an error; [GetEvent] returns just what [Get]
    returns for the id of the request. *)
Theorem get_returns_event_or_error
    (s : service.sportsService DB) (id : Z) :
  (∃ event err,
     sports.Get Query clock (service.eventsRepo s) id
     = Returns (event, err)
     ∧ (is_Some event ↔ err = None))
  ∧ service.GetEvent Query clock s {| service.Id := id |}
    = sports.Get Query clock (service.eventsRepo s) id.
Proof.
  unfold service.GetEvent. simpl. unfold sports.Get.
  destruct (event_List_outcome (service.eventsRepo s)
              (Some {| sports.Sports := []; sports.Leagues := [];
                       sports.Visible := None; sports.Sides := [];
                       sports.Ids := [id] |}) None) as [_ Hret].
  destruct (Hret ltac:(tauto)) as (events & err & -> & _). simpl.
  destruct err as [err|]; simpl.
  - split; [|done]. eexists _, _. split; [done|].
    split; [by intros [? ?]|done].
  - destruct events as [|event [|event' events]]; simpl; split; try done.
    all: eexists _, _; (split; [done|]).
    all: split; try done; by intros [? ?].
Qed.

End Service.

Lemma list_events_panics_exactly_on_empty_segment_witness :
  service.ListEvents twoEvents sampleClock
    (service.NewSportsService (sports.NewEventsRepo ()))
    {| service.Filter := None; service.OrderBy := Some "sport," |}
  = Panics indexOutOfRange0
  ∧ ∃ response err,
      service.ListEvents twoEvents sampleClock
        (service.NewSportsService (sports.NewEventsRepo ()))
        {| service.Filter := None; service.OrderBy := None |}
      = Returns (response, err)
      ∧ (is_Some response ↔ err = None).
Proof.
  split.
  - apply list_events_panics_exactly_on_empty_segment. simpl.
    unfold hasEmptySegment.
    assert (segmentTokens "sport," = [["sport"]; []]) as ->
      by (vm_compute; reflexivity).
    apply list_elem_of_further, list_elem_of_here.
  - apply list_events_panics_exactly_on_empty_segment. simpl. tauto.
Defined.

(** ** Materialisation, row by row *)

Section Materialisation.

Lemma fmap_imap_proj {A B C : Type} (f : B → C) (g : nat → A → B)
    (h : A → C) (l : list A) :
  (∀ i x, f (g i x) = h x) → f <$> imap g l = h <$> l.
Proof.
  intros Hproj. rewrite fmap_imap, <- imap_const.
  apply imap_ext. intros i x _. apply Hproj.
Qed.

Lemma scanRaces_good clock good :
  Forall (fun cols => converts (racing.colAdvertisedStart cols)) good →
  racing.scanRaces clock (inr <$> good)
  = (imap (fun i => raceOf (clock i)) good, None).
Proof. intros Hall. unfold racing.scanRaces. by rewrite scanRacesFrom_all. Qed.

Lemma scanEvents_good clock good :
  Forall (fun cols => converts (sports.colAdvertisedStart cols)) good →
  sports.scanEvents clock (inr <$> good)
  = (imap (fun i => eventOf (clock i)) good, None).
Proof.
  intros Hall. unfold sports.scanEvents. by rewrite scanEventsFrom_all.
Qed.

(** X11: a scan returns all the rows of the cursor or none: its result
    is empty, or it has one race or event per row and comes without
    error; and every event it returns is named after its two sides,
    [home vs away]. *)
Theorem scan_returns_all_rows_or_none
    (clock : nat → Time) (raceRows : Rows racing.RaceColumns)
    (eventRows : Rows sports.EventColumns) :
  ((racing.scanRaces clock raceRows).1 = []
   ∨ (length (racing.scanRaces clock raceRows).1 = length raceRows
      ∧ (racing.scanRaces clock raceRows).2 = None))
  ∧ ((sports.scanEvents clock eventRows).1 = []
     ∨ (length (sports.scanEvents clock eventRows).1 = length eventRows
        ∧ (sports.scanEvents clock eventRows).2 = None))
  ∧ Forall (fun event =>
              sports.Name event
              = sports.HomeSideName event +:+ " vs "
                +:+ sports.AwaySideName event)
           (sports.scanEvents clock eventRows).1.
Proof.
  split; [|split].
  - destruct (rows_split racing.colAdvertisedStart raceRows)
      as [(good & -> & Hall)|(good & bad & rest & e & -> & Hall & Hbad)].
    + right. rewrite scanRaces_good by done. simpl.
      by rewrite length_imap, length_fmap.
    + left. unfold racing.scanRaces.
      by rewrite (scanRacesFrom_failure _ _ _ _ _ e).
  - destruct (rows_split sports.colAdvertisedStart eventRows)
      as [(good & -> & Hall)|(good & bad & rest & e & -> & Hall & Hbad)].
    + right. rewrite scanEvents_good by done. simpl.
      by rewrite length_imap, length_fmap.
    + left. unfold sports.scanEvents.
      by rewrite (scanEventsFrom_failure _ _ _ _ _ e).
  - apply Forall_lookup. intros i event Hevent.
    by apply scanEvents_lookup in Hevent as (cols & _ & ->).
Qed.

(** X12: when every row scans and converts, the races and events come
    out in the order of the cursor, with the columns of their rows as
    fields, and without error. *)
Theorem scan_keeps_cursor_order
    (clock : nat → Time) (races : list racing.RaceColumns)
    (events : list sports.EventColumns) :
  Forall (fun cols => converts (racing.colAdvertisedStart cols)) races →
  Forall (fun cols => converts (sports.colAdvertisedStart cols)) events →
  let scannedRaces := racing.scanRaces clock (inr <$> races) in
  let scannedEvents := sports.scanEvents clock (inr <$> events) in
  scannedRaces.2 = None ∧ scannedEvents.2 = None
  ∧ racing.Id <$> scannedRaces.1 = racing.colId <$> races
  ∧ racing.MeetingId <$> scannedRaces.1 = racing.colMeetingId <$> races
  ∧ racing.Name <$> scannedRaces.1 = racing.colName <$> races
  ∧ racing.Number <$> scannedRaces.1 = racing.colNumber <$> races
  ∧ racing.RaceVisible <$> scannedRaces.1 = racing.colVisible <$> races
  ∧ sports.Id <$> scannedEvents.1 = sports.colId <$> events
  ∧ sports.Sport <$> scannedEvents.1 = sports.colSport <$> events
  ∧ sports.League <$> scannedEvents.1 = sports.colLeague <$> events
  ∧ sports.HomeSideName <$> scannedEvents.1
    = sports.colHomeSideName <$> events
  ∧ sports.AwaySideName <$> scannedEvents.1
    = sports.colAwaySideName <$> events
  ∧ sports.EventVisible <$> scannedEvents.1 = sports.colVisible <$> events.
Proof.
  intros Hraces Hevents scannedRaces scannedEvents.
  subst scannedRaces scannedEvents.
  rewrite scanRaces_good, scanEvents_good by done. simpl.
  repeat split; by apply fmap_imap_proj.
Qed.

(** X13: the clock decides the status and nothing else. Two scans of
    the same cursor fail or succeed alike, and when the readings of the
    second are not earlier than those of the first, a race or event that
    was [CLOSED] in the first scan is [CLOSED] in the second. *)
Theorem closed_stays_closed
    (clock1 clock2 : nat → Time) (raceRows : Rows racing.RaceColumns)
    (eventRows : Rows sports.EventColumns) (i : nat) :
  (∀ k, clock1 k ≤ clock2 k) →
  (racing.scanRaces clock1 raceRows).2 = (racing.scanRaces clock2 raceRows).2
  ∧ (sports.scanEvents clock1 eventRows).2
    = (sports.scanEvents clock2 eventRows).2
  ∧ (∀ race1 race2,
       (racing.scanRaces clock1 raceRows).1 !! i = Some race1 →
       (racing.scanRaces clock2 raceRows).1 !! i = Some race2 →
       racing.Status race1 = "CLOSED" → racing.Status race2 = "CLOSED")
  ∧ (∀ event1 event2,
       (sports.scanEvents clock1 eventRows).1 !! i = Some event1 →
       (sports.scanEvents clock2 eventRows).1 !! i = Some event2 →
       sports.Status event1 = "CLOSED" → sports.Status event2 = "CLOSED").
Proof.
  intros Hclock. split; [|split; [|split]].
  - destruct (rows_split racing.colAdvertisedStart raceRows)
      as [(good & -> & Hall)|(good & bad & rest & e & -> & Hall & Hbad)].
    + by rewrite !scanRaces_good.
    + unfold racing.scanRaces.
      by rewrite !(scanRacesFrom_failure _ _ _ _ _ e).
  - destruct (rows_split sports.colAdvertisedStart eventRows)
      as [(good & -> & Hall)|(good & bad & rest & e & -> & Hall & Hbad)].
    + by rewrite !scanEvents_good.
    + unfold sports.scanEvents.
      by rewrite !(scanEventsFrom_failure _ _ _ _ _ e).
  - intros race1 race2 (cols & Hrow & ->)%scanRaces_lookup
      (cols' & Hrow' & ->)%scanRaces_lookup. simplify_eq. simpl.
    specialize (Hclock i).
    destruct (Z.ltb_spec (racing.colAdvertisedStart cols) (clock1 i));
      [|done].
    destruct (Z.ltb_spec (racing.colAdvertisedStart cols) (clock2 i));
      [done|lia].
  - intros event1 event2 (cols & Hrow & ->)%scanEvents_lookup
      (cols' & Hrow' & ->)%scanEvents_lookup. simplify_eq. simpl.
    specialize (Hclock i).
    destruct (Z.ltb_spec (sports.colAdvertisedStart cols) (clock1 i));
      [|done].
    destruct (Z.ltb_spec (sports.colAdvertisedStart cols) (clock2 i));
      [done|lia].
Qed.

End Materialisation.

Lemma scan_keeps_cursor_order_witness :
  racing.Id <$> (racing.scanRaces sampleClock
                   (inr <$> [raceAt 7 sampleNow; raceAt 3 (sampleNow + hour);
                             raceAt 5 (sampleNow - hour)])).1
  = [7; 3; 5].
Proof.
  refine (proj1 (proj2 (proj2 (scan_keeps_cursor_order sampleClock
            [raceAt 7 sampleNow; raceAt 3 (sampleNow + hour);
             raceAt 5 (sampleNow - hour)] [] _ _)))).
  - repeat constructor.
  - constructor.
Defined.

Lemma closed_stays_closed_witness :
  racing.Status (raceOf (sampleNow + hour) (raceAt 1 (sampleNow - hour)))
  = "CLOSED".
Proof.
  refine (proj1 (proj2 (proj2 (closed_stays_closed
            sampleClock (fun _ => sampleNow + hour)
            sampleRaceRows [] 0 _)))
            (raceOf sampleNow (raceAt 1 (sampleNow - hour))) _ _ _ _).
  - intros k. unfold sampleClock, hour. lia.
  - vm_compute. reflexivity.
  - vm_compute. reflexivity.
  - vm_compute. reflexivity.
Defined.

(** ** The choice of the two sides *)

Section Seeding.

Variable draws : nat → nat.

Lemma pick_nil pos :
  seeding.pick draws pos [] = Panics "invalid argument to Intn".
Proof. reflexivity. Qed.

Lemma pick_side pos sides :
  sides ≠ [] →
  ∃ side, seeding.pick draws pos sides = Returns (side, S pos)
          ∧ sides !! (draws pos mod length sides)%nat = Some side.
Proof.
  intros Hne. unfold seeding.pick, seeding.Intn.
  destruct (Nat.eqb_spec (length sides) 0) as [Hlen|Hlen].
  { by apply length_zero_iff_nil in Hlen. }
  simpl.
  destruct (lookup_lt_is_Some_2 sides (draws pos mod length sides)%nat)
    as [side Hside]; [by apply Nat.mod_upper_bound|].
  exists side. by rewrite Hside.
Qed.

Lemma redraw_result fuel pos sides home away h a pos' :
  away ∈ sides →
  seeding.redraw fuel draws pos sides home away
  = Some (Returns (h, a, pos')) →
  h = home ∧ a ∈ sides ∧ a ≠ home ∧ (pos ≤ pos')%nat.
Proof.
  revert pos away. induction fuel as [|fuel IH]; intros pos away Hin; simpl.
  - destruct (decide (away = home)); [done|]. by intros [= <- <- <-].
  - destruct (decide (away = home)); [|by intros [= <- <- <-]].
    destruct sides as [|s sides]; [by apply elem_of_nil in Hin|].
    destruct (pick_side pos (s :: sides)) as (side & -> & Hside); [done|].
    intros (? & ? & ? & ?)%IH; [|by eapply list_elem_of_lookup_2].
    repeat split; try done. lia.
Qed.

Lemma redraw_stops k fuel pos sides home away :
  sides ≠ [] → (k ≤ fuel)%nat →
  (away ≠ home
   ∨ ∃ j, (j < k)%nat
          ∧ sides !! (draws (pos + j) mod length sides)%nat ≠ Some home) →
  ∃ a pos', seeding.redraw fuel draws pos sides home away
            = Some (Returns (home, a, pos')).
Proof.
  intros Hne. revert fuel pos away.
  induction k as [|k IH]; intros fuel pos away Hfuel Hstop.
  - destruct Hstop as [Hneq|(j & Hj & _)]; [|lia].
    destruct fuel; simpl; destruct (decide (away = home)); try done; eauto.
  - destruct (decide (away = home)) as [->|Hneq].
    + destruct Hstop as [?|(j & Hj & Hside)]; [done|].
      destruct fuel as [|fuel]; [lia|]. simpl.
      rewrite decide_True by done.
      destruct (pick_side pos sides Hne) as (side & -> & Hpicked).
      apply IH; [lia|]. destruct j as [|j].
      * left. rewrite Nat.add_0_r in Hside. congruence.
      * right. exists j. split; [lia|].
        by replace (S pos + j)%nat with (pos + S j)%nat by lia.
    + destruct fuel; simpl; rewrite decide_False by done; eauto.
Qed.

(** X14: when [select_away_and_home] returns, the two sides are entries
    of the list and differ, and at least two draws were made; it panics
    exactly on the empty list. *)
Theorem select_returns_two_different_sides
    (fuel pos : nat) (sides : list string) :
  (∀ home away pos',
     seeding.select_away_and_home fuel draws pos sides
     = Some (Returns (home, away, pos')) →
     home ∈ sides ∧ away ∈ sides ∧ home ≠ away ∧ (pos + 2 ≤ pos')%nat)
  ∧ ((∃ msg, seeding.select_away_and_home fuel draws pos sides
             = Some (Panics msg))
     ↔ sides = []).
Proof.
  unfold seeding.select_away_and_home.
  destruct sides as [|s sides].
  { split; [done|]. split; [done|]. intros _. eauto. }
  destruct (pick_side pos (s :: sides)) as (home & -> & Hhome); [done|].
  destruct (pick_side (S pos) (s :: sides)) as (away & -> & Haway); [done|].
  apply list_elem_of_lookup_2 in Hhome, Haway. split.
  - intros h a pos' (-> & ? & ? & ?)%redraw_result; [|done].
    repeat split; try done. lia.
  - split; [|done]. intros [msg Hpanic]. exfalso.
    revert Hpanic. generalize (S (S pos)). revert Haway. generalize away.
    induction fuel as [|fuel IH]; intros a Ha p; simpl.
    + by destruct (decide (a = home)).
    + destruct (decide (a = home)); [|done].
      destruct (pick_side p (s :: sides)) as (side & -> & Hside); [done|].
      apply IH. by eapply list_elem_of_lookup_2.
Qed.

(** X15: on a list whose entries are all the same side, a single entry
    included, [select_away_and_home] never returns: whatever the draws
    and however many rounds it is given, it is still drawing. *)
Theorem select_never_returns_on_equal_sides
    (fuel pos : nat) (sides : list string) (side : string) :
  sides ≠ [] → Forall (fun s => s = side) sides →
  seeding.select_away_and_home fuel draws pos sides = None.
Proof.
  intros Hne Hall. unfold seeding.select_away_and_home.
  rewrite Forall_lookup in Hall.
  destruct (pick_side pos sides Hne) as (home & -> & Hhome).
  destruct (pick_side (S pos) sides Hne) as (away & -> & Haway).
  apply Hall in Hhome as ->. apply Hall in Haway as ->.
  generalize (S (S pos)).
  induction fuel as [|fuel IH]; intros p; simpl.
  - by rewrite decide_True.
  - rewrite decide_True by done.
    destruct (pick_side p sides Hne) as (again & -> & Hagain).
    apply Hall in Hagain as ->. apply IH.
Qed.

(** X16: [select_away_and_home] returns as soon as a draw for the away
    side picks an entry other than the home side: if the draw [k] rounds
    after the first one does, [k] rounds suffice, and the home side is
    the entry of the first draw. *)
Theorem select_returns_once_a_draw_differs
    (fuel pos k : nat) (sides : list string) (home : string) :
  sides !! (draws pos mod length sides)%nat = Some home →
  sides !! (draws (pos + 1 + k) mod length sides)%nat ≠ Some home →
  (k ≤ fuel)%nat →
  ∃ away pos',
    seeding.select_away_and_home fuel draws pos sides
    = Some (Returns (home, away, pos'))
    ∧ away ≠ home.
Proof.
  intros Hhome Hdiff Hfuel.
  assert (sides ≠ []) as Hne by (by intros ->).
  unfold seeding.select_away_and_home.
  destruct (pick_side pos sides Hne) as (home' & -> & Hhome').
  assert (home' = home) as -> by congruence.
  destruct (pick_side (S pos) sides Hne) as (away & -> & Haway).
  destruct (redraw_stops k fuel (S (S pos)) sides home away Hne Hfuel)
    as (a & pos' & Hret).
  { destruct k as [|k].
    - left. replace (pos + 1 + 0)%nat with (S pos) in Hdiff by lia.
      congruence.
    - right. exists k. split; [lia|].
      by replace (S (S pos) + k)%nat with (pos + 1 + S k)%nat by lia. }
  exists a, pos'. split; [done|].
  apply redraw_result in Hret as (_ & _ & ? & _); [done|].
  by eapply list_elem_of_lookup_2.
Qed.

End Seeding.

Lemma select_returns_two_different_sides_witness :
  "a" ∈ ["a"; "b"; "c"] ∧ "b" ∈ ["a"; "b"; "c"] ∧ "a" ≠ "b"
  ∧ (0 + 2 ≤ 2)%nat.
Proof.
  apply (proj1 (select_returns_two_different_sides
                  (fun k => k) 0 0 ["a"; "b"; "c"])).
  vm_compute. reflexivity.
Defined.

Lemma select_never_returns_on_equal_sides_witness :
  seeding.select_away_and_home 100 (fun k => (7 * k)%nat) 0 ["x"; "x"; "x"]
  = None.
Proof.
  apply (select_never_returns_on_equal_sides _ _ _ _ "x").
  - discriminate.
  - by repeat constructor.
Defined.

Lemma select_returns_once_a_draw_differs_witness :
  ∃ away pos',
    seeding.select_away_and_home 2
      (fun k => if (k <? 3)%nat then 0%nat else 1%nat) 0 ["a"; "b"]
    = Some (Returns ("a", away, pos'))
    ∧ away ≠ "a".
Proof.
  apply (select_returns_once_a_draw_differs _ 2 0 2 ["a"; "b"] "a").
  - reflexivity.
  - vm_compute. discriminate.
  - lia.
Defined.
